(** * t5.data.utils: seed sequencing and memoized TFDS builders

    A shallow embedding of [t5/data/utils.py].  The module keeps three pieces
    of process-wide mutable state: the TFDS directory override, the class-level
    dictionary of memoized builders and the next map seed.  They are gathered
    in one record, [World], that every operation threads explicitly; Python
    exceptions are the left summand of a result.

    What lives outside the module (TFDS, absl logging, NumPy, contextlib) is
    modelled by its documented behaviour and marked as such where it appears. *)

From Stdlib Require Import Ascii.
From stdpp Require Import gmap strings list fin_maps.

Local Open Scope string_scope.
Local Open Scope list_scope.
Local Open Scope Z_scope.

(** ** Python values used by the module *)

(** A seed handed to [tf.data.experimental.RandomDataset]: a pair whose
    components are numbers, or [None] on the non-deterministic path.  A
    number is recorded by its value: it is a NumPy [int64], or, past the
    [int64] range, a [float64] or a Python [int] (see [arange]). *)
Definition Seed : Type := option Z * option Z.

(** One entry of [split_info.file_instructions]. *)
Record FileInstruction := mkFileInstruction {
  fi_filename : string;
  fi_skip : Z;
  fi_take : Z;
}.

(** [builder.info.splits[split]]. *)
Record SplitInfo := mkSplitInfo {
  file_instructions : list FileInstruction;
  num_examples : Z;
}.

(** Exceptions that leave a function of the module.  [FatalError] stands for
    the end of the process that absl's handler brings about after a record
    logged by [logging.fatal]. *)
Inductive Exc :=
| KeyError (key : string)
| ValueError (msg : string)
| FatalError (msg : string)
| BuilderError (name : string).

(** What the module reads of a [tfds.core.DatasetBuilder]:
    [builder.BUILDER_CONFIGS] and [builder.info.splits].  The latter is a
    TFDS [SplitDict]: [splits] holds its keys, and [split_instruction] is what
    it does with a name that is not a key, which it hands to TFDS's parser of
    split instructions (slices such as [train[:1%]]): the sub-split the
    parser computes, or the exception it raises (for a split it does not
    know, [ValueError]). *)
Record Builder := mkBuilder {
  BUILDER_CONFIGS : list string;
  splits : gmap string SplitInfo;
  split_instruction : string → Exc + SplitInfo;
}.

(** A builder object: its identity (Python's [id]) and its contents.  The
    module never mutates a builder, so the contents travel with the identity.
    Two values denote the identical instance exactly when their [ident]s are
    equal. *)
Record BuilderObj := mkBuilderObj {
  ident : nat;
  contents : Builder;
}.

(** The result of [LazyTfdsLoader.size]: a count or [np.inf]. *)
Inductive Size :=
| Count (n : Z)
| Inf.

(** Records written through [absl.logging]. *)
Inductive LogRecord :=
| LogWarning (msg : string)
| LogFatal (msg : string).

(** ** The process state *)

(** The module globals, together with what the module can observe of its
    collaborators: [catalog] is what [tfds.builder(name, data_dir=d)] would
    construct ([None] when it raises), [builder_calls] counts the calls made to
    it, [log] is the absl log, oldest record first, and
    [absl_handler_installed] says whether absl's own handler is on the root
    logger: that handler, and nothing else, ends the process after a record
    of level FATAL. *)
Record World := mkWorld {
  TFDS_DATA_DIR_OVERRIDE : option string;           (* _TFDS_DATA_DIR_OVERRIDE *)
  MEMOIZED_BUILDERS : gmap (string * option string) BuilderObj;
                                         (* LazyTfdsLoader._MEMOIZED_BUILDERS *)
  NEXT_MAP_SEED : option Z;                                 (* _NEXT_MAP_SEED *)
  catalog : string → option string → option Builder;
  builder_calls : nat;
  log : list LogRecord;
  absl_handler_installed : bool;
}.

Definition with_override (o : option string) (w : World) : World :=
  mkWorld o (MEMOIZED_BUILDERS w) (NEXT_MAP_SEED w) (catalog w)
          (builder_calls w) (log w) (absl_handler_installed w).

Definition with_memo (m : gmap (string * option string) BuilderObj)
    (w : World) : World :=
  mkWorld (TFDS_DATA_DIR_OVERRIDE w) m (NEXT_MAP_SEED w) (catalog w)
          (builder_calls w) (log w) (absl_handler_installed w).

Definition with_seed (s : option Z) (w : World) : World :=
  mkWorld (TFDS_DATA_DIR_OVERRIDE w) (MEMOIZED_BUILDERS w) s (catalog w)
          (builder_calls w) (log w) (absl_handler_installed w).

Definition with_call (w : World) : World :=
  mkWorld (TFDS_DATA_DIR_OVERRIDE w) (MEMOIZED_BUILDERS w) (NEXT_MAP_SEED w)
          (catalog w) (S (builder_calls w)) (log w) (absl_handler_installed w).

Definition with_log (r : LogRecord) (w : World) : World :=
  mkWorld (TFDS_DATA_DIR_OVERRIDE w) (MEMOIZED_BUILDERS w) (NEXT_MAP_SEED w)
          (catalog w) (builder_calls w) (log w ++ [r])
          (absl_handler_installed w).


(** The state of a fresh interpreter that has imported the module.  On
    import absl puts its handler on the root logger, which has no handler
    yet. *)
Definition initial_world (cat : string → option string → option Builder) : World :=
  mkWorld None ∅ None cat 0 [] true.

(** ** State and exception monad *)

Definition M (A : Type) : Type := World → (Exc + A) * World.

Definition ret {A} (a : A) : M A := λ w, (inr a, w).

Definition raise {A} (e : Exc) : M A := λ w, (inl e, w).

Definition bind {A B} (m : M A) (k : A → M B) : M B :=
  λ w, match m w with
       | (inl e, w') => (inl e, w')
       | (inr a, w') => k a w'
       end.

Definition get : M World := λ w, (inr w, w).

Definition modify (f : World → World) : M unit := λ w, (inr tt, f w).

Declare Scope py_scope.
Delimit Scope py_scope with py.
Notation "x <- m ;; k" := (bind m (λ x, k))
  (at level 100, m at next level, right associativity) : py_scope.
Notation "m ;;; k" := (bind m (λ _, k))
  (at level 100, right associativity) : py_scope.
Local Open Scope py_scope.

(** ** NumPy and tuple helpers used by [map_over_dataset] *)

Definition fits_int64 (z : Z) : bool := (- 2 ^ 63 <=? z) && (z <? 2 ^ 63).

Definition fits_uint64 (z : Z) : bool := (0 <=? z) && (z <? 2 ^ 64).

Inductive np_dtype := np_int64 | np_float64 | np_object.

(** The dtype [np.arange] chooses for Python integers: the platform integer,
    [int64], widened by each argument.  An argument that fits [int64] leaves
    it alone; one that only fits [uint64] turns it into the common type of
    [int64] and [uint64], which is [float64]; one that fits neither turns it
    into [object]. *)
Definition arange_dtype (start stop : Z) : np_dtype :=
  if fits_int64 start && fits_int64 stop then np_int64
  else if (fits_int64 start || fits_uint64 start)
          && (fits_int64 stop || fits_uint64 stop) then np_float64
  else np_object.

(** The [float64] nearest to an integer, ties to even: exact below [2^53],
    and above it a multiple of the spacing with 53 significant bits. *)
Definition round_f64 (z : Z) : Z :=
  let a := Z.abs z in
  if a <? 2 ^ 53 then z
  else
    let e := Z.log2 a - 52 in
    let q := a / 2 ^ e in
    let r := a mod 2 ^ e in
    let half := 2 ^ (e - 1) in
    let q' := if (half <? r) || ((r =? half) && Z.odd q) then q + 1 else q in
    Z.sgn z * (q' * 2 ^ e).

(** [np.arange(start, stop)] on Python integers, each element recorded by
    its value.  The length is [stop - start], computed on the Python
    integers.  With dtype [int64] or [object] the elements are [start],
    [start + 1], ...  With dtype [float64] NumPy stores [start] and
    [start + 1] converted to [float64] and fills the rest as
    [first + i * delta] in [float64] arithmetic, [delta] being the difference
    of the two stored values. *)
Definition arange (start stop : Z) : list Z :=
  match arange_dtype start stop with
  | np_float64 =>
      let first := round_f64 start in
      let second := round_f64 (start + 1) in
      let delta := round_f64 (second - first) in
      (λ i, if i =? 0 then first
            else if i =? 1 then second
            else round_f64 (first + round_f64 (round_f64 i * delta)))
        <$> seqZ 0 (stop - start)
  | _ => seqZ start (stop - start)
  end.

(** [a.reshape(-1, 2)] followed by [tuple(tuple(s) for s in a)]: the rows of
    width two; NumPy raises when the size is odd. *)
Fixpoint reshape_rows2 (a : list Z) : option (list (Z * Z)) :=
  match a with
  | [] => Some []
  | [_] => None
  | x :: y :: r => (λ t, (x, y) :: t) <$> reshape_rows2 r
  end.

(** [(x,) * n]: empty when [n] is not positive. *)
Definition tuple_repeat {A} (x : A) (n : Z) : list A := replicate (Z.to_nat n) x.

(** ** Decorators (lines 267-346) *)

(** [map_seed_manager] is a generator turned into a context manager by
    [contextlib.contextmanager].  [map_seed_manager_enter] is the generator up
    to its [yield]; it returns the local [old_map_seed] kept in the suspended
    frame.  [map_seed_manager_exit] is the code after the [yield]. *)
Definition map_seed_manager_enter (initial_seed : option Z) : M (option Z) :=
  w <- get ;;
  let old_map_seed := NEXT_MAP_SEED w in
  modify (with_seed initial_seed) ;;;
  ret old_map_seed.

Definition map_seed_manager_exit (old_map_seed : option Z) : M unit :=
  modify (with_seed old_map_seed).

(** [with cm: body] for a context manager made by [contextlib.contextmanager]
    from a generator whose [yield] is not inside a [try].  On normal completion
    of the body [__exit__] resumes the generator, which runs the code after
    the [yield].  When the body raises, [__exit__] throws the exception into
    the generator at the [yield]; nothing catches it there, so the code after
    the [yield] does not run and the exception propagates. *)
Definition with_contextmanager {L A}
    (enter : M L) (exit : L → M unit) (body : M A) : M A :=
  λ w, match enter w with
       | (inl e, w1) => (inl e, w1)
       | (inr frame, w1) =>
           match body w1 with
           | (inl e, w2) => (inl e, w2)
           | (inr a, w2) =>
               match exit frame w2 with
               | (inl e, w3) => (inl e, w3)
               | (inr _, w3) => (inr a, w3)
               end
           end
       end.

Definition map_seed_manager {A} (initial_seed : option Z) (body : M A) : M A :=
  with_contextmanager (map_seed_manager_enter initial_seed)
                      map_seed_manager_exit body.

(** The seed derivation of [map_over_dataset.map_with_seeds.wrapped_fn]
    (lines 316-323): the value of [random_ds_seeds] and the update of
    [_NEXT_MAP_SEED].  The datasets built from the seeds belong to TensorFlow. *)
Definition map_with_seeds (num_seeds : Z) : M (list Seed) :=
  w <- get ;;
  match NEXT_MAP_SEED w with
  | None => ret (tuple_repeat (None, None) num_seeds)
  | Some next =>
      match reshape_rows2 (arange next (next + 2 * num_seeds)) with
      | None => raise (ValueError "cannot reshape array into shape (-1, 2)")
      | Some rows =>
          let random_ds_seeds := (λ s : Z * Z, (Some s.1, Some s.2)) <$> rows in
          modify (with_seed (Some (next + 2 * num_seeds))) ;;;
          ret random_ds_seeds
      end
  end.

(** The integer components of a block of seeds, in order. *)
Definition components (seeds : list Seed) : list (option Z) :=
  seeds ≫= λ s, [s.1; s.2].

(** [k] successive stage invocations, each asking for [num_seeds] seeds. *)
Fixpoint repeat_map_with_seeds (k : nat) (num_seeds : Z) : M (list (list Seed)) :=
  match k with
  | O => ret []
  | S k' =>
      s <- map_with_seeds num_seeds ;;
      r <- repeat_map_with_seeds k' num_seeds ;;
      ret (s :: r)
  end.

(** ** Collaborators: absl logging and TFDS *)

Definition logging_warning (msg : string) : M unit :=
  modify (with_log (LogWarning msg)).

(** [logging.fatal] writes a record of level FATAL.  absl's handler ends the
    process once it has emitted such a record, and control does not come
    back; with another handler in its place the call returns like any other
    logging call. *)
Definition logging_fatal (msg : string) : M unit :=
  modify (with_log (LogFatal msg)) ;;;
  w <- get ;;
  if absl_handler_installed w then raise (FatalError msg) else ret tt.

(** [tfds.builder(name, data_dir=data_dir)]: every call is counted; a
    successful call returns a new object, whose identity is the number of
    calls made before it. *)
Definition tfds_builder (name : string) (data_dir : option string) : M BuilderObj :=
  w <- get ;;
  modify with_call ;;;
  match catalog w name data_dir with
  | None => raise (BuilderError name)
  | Some b => ret (mkBuilderObj (builder_calls w) b)
  end.

(** ** Python truthiness and string helpers *)

(** [bool(x)] for [x] a [str] or [None]. *)
Definition truthy_str (x : option string) : bool :=
  match x with
  | None => false
  | Some s => negb (String.eqb s "")
  end.

(** [bool(x)] for [x] a [dict] or [None]. *)
Definition truthy_dict {V} (x : option (gmap string V)) : bool :=
  match x with
  | None => false
  | Some m => negb (bool_decide (m = ∅))
  end.

(** [sub in s] on strings. *)
Fixpoint str_in (sub s : string) : bool :=
  String.prefix sub s ||
  match s with
  | EmptyString => false
  | String _ s' => str_in sub s'
  end.

(** ['%s' % x] for [x] a [str] or [None]. *)
Definition str_of (x : option string) : string := default "None" x.

(** ** Global override (lines 48-50) *)

Definition set_tfds_data_dir_override (tfds_data_dir : option string) : M unit :=
  modify (with_override tfds_data_dir).

(** ** LazyTfdsLoader (lines 67-166) *)

Record LazyTfdsLoader := mkLazyTfdsLoader {
  _name : string;
  _data_dir : option string;
  _split_map : option (gmap string string);
}.

(** The [name] property (lines 90-92). *)
Definition name (self : LazyTfdsLoader) : string := _name self.

(** The [data_dir] property (lines 94-102). *)
Definition data_dir (self : LazyTfdsLoader) : M (option string) :=
  w <- get ;;
  if truthy_str (TFDS_DATA_DIR_OVERRIDE w) then
    (if truthy_str (_data_dir self) then
       logging_warning
         ("Overriding TFDS data directory '" +:+ str_of (_data_dir self)
          +:+ "' with '" +:+ str_of (TFDS_DATA_DIR_OVERRIDE w)
          +:+ "' for dataset '" +:+ name self +:+ "'.")
     else ret tt) ;;;
    ret (TFDS_DATA_DIR_OVERRIDE w)
  else ret (_data_dir self).

(** The [builder] property (lines 104-110), statement by statement: the key
    (line 106), the membership test (line 107), the call to [tfds.builder]
    (lines 108-109), the assignment into the dictionary (line 108) and the
    final lookup (line 110).  The interleaving model below schedules these
    pieces separately; [builder] runs them in order. *)
Definition builder_key (self : LazyTfdsLoader) : M (string * option string) :=
  d <- data_dir self ;;
  ret (name self, d).

Definition builder_absent (key : string * option string) : M bool :=
  w <- get ;;
  ret (bool_decide (MEMOIZED_BUILDERS w !! key = None)).

Definition builder_construct (self : LazyTfdsLoader) : M BuilderObj :=
  d <- data_dir self ;;
  tfds_builder (name self) d.

Definition builder_store (key : string * option string) (b : BuilderObj) : M unit :=
  modify (λ w, with_memo (<[key := b]> (MEMOIZED_BUILDERS w)) w).

Definition builder_lookup (key : string * option string) : M BuilderObj :=
  w <- get ;;
  match MEMOIZED_BUILDERS w !! key with
  | Some b => ret b
  | None => raise (KeyError key.1)
  end.

Definition builder (self : LazyTfdsLoader) : M BuilderObj :=
  key <- builder_key self ;;
  absent <- builder_absent key ;;
  (if absent : bool then
     b <- builder_construct self ;;
     builder_store key b
   else ret tt) ;;;
  builder_lookup key.

(** The [info] property (lines 112-114).  The module reads nothing of
    [builder.info] but its [splits], so the builder's contents stand for
    it. *)
Definition info (self : LazyTfdsLoader) : M Builder :=
  b <- builder self ;;
  ret (contents b).

(** [_map_split] (lines 116-117): the conditional expression tests the
    truthiness of the split map, then indexes it. *)
Definition _map_split (self : LazyTfdsLoader) (split : string) : M string :=
  if truthy_dict (_split_map self) then
    match default ∅ (_split_map self) !! split with
    | Some s => ret s
    | None => raise (KeyError split)
    end
  else ret split.

(** [builder.info.splits[key]]: [SplitDict.__getitem__] returns the entry of
    a key, and passes any other name to the parser of split instructions. *)
Definition getitem (b : Builder) (key : string) : M SplitInfo :=
  match splits b !! key with
  | Some v => ret v
  | None =>
      match split_instruction b key with
      | inl e => raise e
      | inr v => ret v
      end
  end.

(** [files] (lines 119-133).  The [and] of line 123 evaluates
    [self.builder] only when the name has no ["/"]. *)
Definition files (self : LazyTfdsLoader) (split : string) : M (list FileInstruction) :=
  split <- _map_split self split ;;
  ambiguous <-
    (if negb (str_in "/" (name self)) then
       b <- builder self ;;
       ret (negb (bool_decide (BUILDER_CONFIGS (contents b) = [])))
     else ret false) ;;
  if ambiguous : bool then
    raise (ValueError ("Dataset '" +:+ name self +:+ "' has multiple configs."))
  else
    b <- builder self ;;
    split_info <- getitem (contents b) split ;;
    let files := file_instructions split_info in
    (if bool_decide (files = []) then
       logging_fatal ("No TFRecord files found for dataset: " +:+ name self)
     else ret tt) ;;;
    ret files.

(** [size] (lines 159-166).  [ds_splits] is the [SplitDict] of the builder,
    which [getitem] reads off the builder's contents. *)
Definition size (self : LazyTfdsLoader) (split : string) : M Size :=
  split <- _map_split self split ;;
  ds_info <- info self ;;
  let ds_splits := ds_info in
  split_info <- getitem ds_splits split ;;
  let dataset_size := num_examples split_info in
  ret (if bool_decide (dataset_size > 0) then Count dataset_size else Inf).

(** ** Interleaved executions of the [builder] property

    The property takes no lock.  To speak about callers that overlap, its body
    is cut at statement boundaries into atomic steps; a thread is a program
    point, and a schedule names the thread that takes the next step. *)
Inductive Pc :=
| AtKey                                                   (* line 106 *)
| AtTest (key : string * option string)                   (* line 107 *)
| AtConstruct (key : string * option string)   (* lines 108-109, the call *)
| AtStore (key : string * option string) (b : BuilderObj)
                                            (* line 108, the assignment *)
| AtReturn (key : string * option string)                 (* line 110 *)
| Finished (r : Exc + BuilderObj).

Definition advance {A} (m : M A) (next : A → Pc) : World → Pc * World :=
  λ w, match m w with
       | (inl e, w') => (Finished (inl e), w')
       | (inr a, w') => (next a, w')
       end.

Definition thread_step (self : LazyTfdsLoader) (pc : Pc) : World → Pc * World :=
  match pc with
  | AtKey => advance (builder_key self) AtTest
  | AtTest key =>
      advance (builder_absent key)
              (λ absent : bool, if absent then AtConstruct key else AtReturn key)
  | AtConstruct key => advance (builder_construct self) (AtStore key)
  | AtStore key b => advance (builder_store key b) (λ _, AtReturn key)
  | AtReturn key => advance (builder_lookup key) (λ b, Finished (inr b))
  | Finished r => λ w, (Finished r, w)
  end.

(** Thread [i] takes one step; a thread that does not exist takes none. *)
Definition run_thread (self : LazyTfdsLoader) (st : list Pc * World) (i : nat)
    : list Pc * World :=
  match st.1 !! i with
  | None => st
  | Some pc =>
      let '(pc', w') := thread_step self pc st.2 in (<[i := pc']> st.1, w')
  end.

Definition run_schedule (self : LazyTfdsLoader) (sched : list nat)
    (st : list Pc * World) : list Pc * World :=
  foldl (run_thread self) st sched.

(** [k] steps in a row of a single caller. *)
Fixpoint thread_steps (self : LazyTfdsLoader) (k : nat) (pc : Pc) (w : World)
    : Pc * World :=
  match k with
  | O => (pc, w)
  | S k' =>
      let '(pc', w') := thread_step self pc w in thread_steps self k' pc' w'
  end.

(** [n] callers that have all just entered the property. *)
Definition spawn (n : nat) (w : World) : list Pc * World := (replicate n AtKey, w).

Definition finished (pc : Pc) : bool :=
  match pc with
  | Finished _ => true
  | _ => false
  end.

(** The schedule in which caller [0] runs to completion, then caller [1], and
    so on: the callers do not overlap. *)
Definition serial_schedule (n : nat) : list nat :=
  seq 0 n ≫= λ i, replicate 5 i.

(** ** Reference definitions taken from the specification *)

(** The block of [count] seeds dispensed at [base]: pair [i] is
    [(base + 2i, base + 2i + 1)]. *)
Definition seed_block (base count : Z) : list Seed :=
  (λ i, (Some (base + 2 * i), Some (base + 2 * i + 1))) <$> seqZ 0 count.

(** What the code computes for a request of [count] seeds at [base], whatever
    dtype [np.arange] chooses there. *)
Definition dispensed (base count : Z) : list Seed :=
  (λ s : Z * Z, (Some s.1, Some s.2)) <$>
    default [] (reshape_rows2 (arange base (base + 2 * count))).

(** The sentinel returned when no base is set. *)
Definition sentinel_block (count : Z) : list Seed :=
  replicate (Z.to_nat count) (None, None).

(** ** Directory resolution, in closed form *)

(** Python truthiness of the two directories decides everything in
    [data_dir]: a directory counts as set when it is a non-empty string. *)
Definition is_set (x : option string) : Prop := truthy_str x = true.

(** The directory [data_dir] returns. *)
Definition resolved_dir (self : LazyTfdsLoader) (w : World) : option string :=
  if truthy_str (TFDS_DATA_DIR_OVERRIDE w) then TFDS_DATA_DIR_OVERRIDE w
  else _data_dir self.

(** The text of the warning [data_dir] writes. *)
Definition override_warning (self : LazyTfdsLoader) (w : World) : string :=
  "Overriding TFDS data directory '" +:+ str_of (_data_dir self)
  +:+ "' with '" +:+ str_of (TFDS_DATA_DIR_OVERRIDE w)
  +:+ "' for dataset '" +:+ name self +:+ "'.".

(** The state after one evaluation of [data_dir]. *)
Definition after_data_dir (self : LazyTfdsLoader) (w : World) : World :=
  if truthy_str (TFDS_DATA_DIR_OVERRIDE w) && truthy_str (_data_dir self)
  then with_log (LogWarning (override_warning self w)) w
  else w.

(** One evaluation of [data_dir] wrote a warning. *)
Definition warns (self : LazyTfdsLoader) (w : World) : Prop :=
  ∃ msg, log (data_dir self w).2 = log w ++ [LogWarning msg].

(** ** Bookkeeping for interleavings *)

(** A caller at one of these points has not called [tfds.builder] yet and may
    still do so. *)
Definition may_construct (pc : Pc) : bool :=
  match pc with
  | AtKey | AtTest _ | AtConstruct _ => true
  | _ => false
  end.

Fixpoint pending (pcs : list Pc) : nat :=
  match pcs with
  | [] => 0
  | pc :: r => ((if may_construct pc then 1 else 0) + pending r)%nat
  end.

(** [b] was constructed, with contents [bd], by a call to [tfds.builder] made
    after state [w0] and before state [w]. *)
Definition built_between (w0 w : World) (bd : Builder) (b : BuilderObj) : Prop :=
  contents b = bd ∧ (builder_calls w0 ≤ ident b < builder_calls w)%nat.

(** What is known of a caller at each program point. *)
Definition pc_inv (key : string * option string) (w0 w : World) (bd : Builder)
    (pc : Pc) : Prop :=
  match pc with
  | AtKey => True
  | AtTest k | AtConstruct k => k = key
  | AtStore k b => k = key ∧ built_between w0 w bd b
  | AtReturn k => k = key ∧ is_Some (MEMOIZED_BUILDERS w !! key)
  | Finished r => ∃ b, r = inr b ∧ built_between w0 w bd b
  end.

(** The invariant of every interleaving of [n] callers started in [w0]. *)
Definition interleaving_inv (self : LazyTfdsLoader) (w0 : World) (bd : Builder)
    (n : nat) (st : list Pc * World) : Prop :=
  let key := (name self, resolved_dir self w0) in
  TFDS_DATA_DIR_OVERRIDE st.2 = TFDS_DATA_DIR_OVERRIDE w0
  ∧ catalog st.2 = catalog w0
  ∧ length st.1 = n
  ∧ Forall (pc_inv key w0 st.2 bd) st.1
  ∧ (∀ b, MEMOIZED_BUILDERS st.2 !! key = Some b → built_between w0 st.2 bd b)
  ∧ (builder_calls st.2 + pending st.1 ≤ builder_calls w0 + n)%nat
  ∧ (builder_calls w0 ≤ builder_calls st.2)%nat.

(** ** Concrete scenarios *)

(** A scope whose seed is two below the end of the [int64] range, and one
    request of one seed in it. *)
Definition edge_scenario : M (list Seed) :=
  map_seed_manager (Some (2 ^ 63 - 2)) (map_with_seeds 1).

(** Scope 5, one seed; nested scope 100, one seed; back outside, one seed. *)
Definition nesting_scenario : M (list Seed * list Seed * list Seed) :=
  map_seed_manager (Some 5) (
    a <- map_with_seeds 1 ;;
    b <- map_seed_manager (Some 100) (map_with_seeds 1) ;;
    c <- map_with_seeds 1 ;;
    ret (a, b, c)).

(** A stage takes one seed inside scope 5 and the enclosed work then fails. *)
Definition failing_scenario : M unit :=
  map_seed_manager (Some 5) (
    map_with_seeds 1 ;;;
    raise (ValueError "preprocessor failed")).

Definition demo_shard : FileInstruction :=
  mkFileInstruction "squad-train.tfrecord-00000-of-00001" 0 100.

(** TFDS's parser on the names used below: it computes the slice
    [train[:1%]] and does not know any other name. *)
Definition demo_instruction (key : string) : Exc + SplitInfo :=
  if String.eqb key "train[:1%]" then inr (mkSplitInfo [demo_shard] 1)
  else inl (ValueError ("Unknown split " +:+ key)).

Definition demo_builder : Builder :=
  mkBuilder []
    (<["train" := mkSplitInfo [demo_shard] 100]>
     (<["empty" := mkSplitInfo [] 0]> ∅))
    demo_instruction.

(** TFDS knows one dataset, whatever the directory. *)
Definition demo_catalog (name : string) (data_dir : option string) : option Builder :=
  if String.eqb name "squad" then Some demo_builder else None.

Definition demo_world : World := initial_world demo_catalog.

Definition demo_loader : LazyTfdsLoader :=
  mkLazyTfdsLoader "squad" None None.

(** A loader with [split_map = {"validation": "train[:1%]"}]. *)
Definition mapped_loader : LazyTfdsLoader :=
  mkLazyTfdsLoader "squad" None (Some {["validation" := "train[:1%]"]}).

(** A loader constructed with the directory the override is later set to. *)
Definition dir_loader : LazyTfdsLoader :=
  mkLazyTfdsLoader "squad" (Some "/data") None.

(** Two overlapping callers: both test before either stores. *)
Definition racy_schedule : list nat := [0; 0; 1; 1; 0; 1; 0; 0; 1; 1]%nat.

(** ** Several stages in one scope *)

(** Stage invocations one after the other, the [i]-th asking for
    [counts !! i] seeds: what a pipeline of decorated preprocessors does. *)
Fixpoint map_with_seeds_stages (counts : list Z) : M (list (list Seed)) :=
  match counts with
  | [] => ret []
  | n :: rest =>
      s <- map_with_seeds n ;;
      t <- map_with_seeds_stages rest ;;
      ret (s :: t)
  end.

(** The blocks such a pipeline is expected to receive from base [base]. *)
Fixpoint stage_blocks (base : Z) (counts : list Z) : list (list Seed) :=
  match counts with
  | [] => []
  | n :: rest => seed_block base n :: stage_blocks (base + 2 * n) rest
  end.

Definition total (counts : list Z) : Z := foldr Z.add 0 counts.

(** The blocks the code computes for such a pipeline from base [base]. *)
Fixpoint stage_dispensed (base : Z) (counts : list Z) : list (list Seed) :=
  match counts with
  | [] => []
  | n :: rest => dispensed base n :: stage_dispensed (base + 2 * n) rest
  end.

(** ** Global cache directories (lines 35, 53-64)

    [_GLOBAL_CACHE_DIRECTORIES] names a list object, and [+=] on a list
    extends the object in place.  Lists are therefore kept in a store and
    passed by reference; the functions take and return references. *)
Record CacheDirs := mkCacheDirs {
  GLOBAL_CACHE_DIRECTORIES : nat;        (* the object the global names *)
  list_objects : gmap nat (list string); (* the list objects, by identity *)
}.

(** The elements of the list object [r]. *)
Definition list_contents (st : CacheDirs) (r : nat) : list string :=
  default [] (list_objects st !! r).

(** The module as imported: the global names a new empty list. *)
Definition initial_cache_dirs : CacheDirs := mkCacheDirs 0 {[0%nat := []]}.

Definition get_global_cache_dirs (st : CacheDirs) : nat :=
  GLOBAL_CACHE_DIRECTORIES st.

Definition set_global_cache_dirs (global_cache_dirs : nat) (st : CacheDirs)
    : CacheDirs :=
  mkCacheDirs global_cache_dirs (list_objects st).

(** [_GLOBAL_CACHE_DIRECTORIES += global_cache_dirs]: [list.__iadd__] appends
    the elements the argument has when the statement starts and returns the
    same object, which the global keeps naming. *)
Definition add_global_cache_dirs (global_cache_dirs : nat) (st : CacheDirs)
    : CacheDirs :=
  let g := GLOBAL_CACHE_DIRECTORIES st in
  mkCacheDirs g
    (<[g := list_contents st g ++ list_contents st global_cache_dirs]>
       (list_objects st)).

(** ** Paths of cached tasks (lines 30-32, 202-211) *)

(** [template.format(split=split)] for a template whose only replacement
    fields are [{split}] and that has no doubled braces, as the three
    templates of the module are. *)
Fixpoint format_split (template split : string) : string :=
  match template with
  | EmptyString => EmptyString
  | String "{"%char (String "s"%char (String "p"%char (String "l"%char
      (String "i"%char (String "t"%char (String "}"%char rest)))))) =>
      split +:+ format_split rest split
  | String c rest => String c (format_split rest split)
  end.

Fixpoint endswith_sep (path : string) : bool :=
  match path with
  | EmptyString => false
  | String c EmptyString => Ascii.eqb c "/"%char
  | String _ rest => endswith_sep rest
  end.

(** [os.path.join(a, b)] of [posixpath]: an absolute [b] replaces [a];
    otherwise [b] is appended, after a separator unless [a] is empty or
    already ends with one. *)
Definition os_path_join (a b : string) : string :=
  if String.prefix "/" b then b
  else if String.eqb a "" || endswith_sep a then a +:+ b
  else a +:+ "/" +:+ b.

Definition _INFO_FILENAME : string := "info.{split}.json".
Definition _STATS_FILENAME : string := "stats.{split}.json".
Definition _TFRECORD_PREFIX : string := "{split}.tfrecord".

Definition get_info_path (data_dir split : string) : string :=
  os_path_join data_dir (format_split _INFO_FILENAME split).

Definition get_tfrecord_prefix (data_dir split : string) : string :=
  os_path_join data_dir (format_split _TFRECORD_PREFIX split).

Definition get_stats_path (data_dir split : string) : string :=
  os_path_join data_dir (format_split _STATS_FILENAME split).

(** ** Bookkeeping for the dictionary of builders *)

(** An operation keeps every entry of [_MEMOIZED_BUILDERS] as it is; it may
    add entries. *)
Definition memo_grows {A} (m : M A) : Prop :=
  ∀ w, MEMOIZED_BUILDERS w ⊆ MEMOIZED_BUILDERS (m w).2.

(** ** More scenarios *)

(** A dataset with several named configurations. *)
Definition glue_builder : Builder :=
  mkBuilder ["cola"; "sst2"] (<["train" := mkSplitInfo [demo_shard] 100]> ∅)
    demo_instruction.

(** TFDS knows ["squad"], ["glue"] and ["glue/cola"]. *)
Definition wide_catalog (name : string) (data_dir : option string) : option Builder :=
  if String.eqb name "squad" then Some demo_builder
  else if String.eqb name "glue" then Some glue_builder
  else if String.eqb name "glue/cola" then Some glue_builder
  else None.

Definition wide_world : World := initial_world wide_catalog.

(** A loader that names the dataset but none of its configurations. *)
Definition glue_loader : LazyTfdsLoader := mkLazyTfdsLoader "glue" None None.

(** A loader for a dataset TFDS does not know. *)
Definition missing_loader : LazyTfdsLoader := mkLazyTfdsLoader "c4" None None.

(** Three list objects: the module's own, and two made by a caller. *)
Definition demo_cache_dirs : CacheDirs :=
  mkCacheDirs 0 (<[0%nat := []]> (<[1%nat := ["/a"]]> (<[2%nat := ["/b"; "/c"]]> ∅))).

(** * Properties *)

(** ** Monad and state bookkeeping *)

Lemma with_seed_same (w : World) : with_seed (NEXT_MAP_SEED w) w = w.
Proof. by destruct w. Qed.

Lemma bind_ret_l {A B} (a : A) (k : A → M B) (w : World) :
  bind (ret a) k w = k a w.
Proof. reflexivity. Qed.

Lemma bind_ok {A B} (m : M A) (k : A → M B) (w w' : World) (a : A) :
  m w = (inr a, w') → bind m k w = k a w'.
Proof. intros H. unfold bind. by rewrite H. Qed.


(** ** Seed arithmetic *)

Lemma seqZ_two_more (s n : Z) :
  0 ≤ n → seqZ s (2 * (n + 1)) = s :: (s + 1) :: seqZ (s + 2) (2 * n).
Proof.
  intros Hn.
  rewrite seqZ_cons by lia. rewrite seqZ_cons by lia.
  do 2 f_equal. f_equal; lia.
Qed.

Lemma seqZ_shift (A : Type) (f : Z → A) (m n : Z) :
  f <$> seqZ m n = (λ i, f (m + i)) <$> seqZ 0 n.
Proof.
  replace (seqZ m n) with (seqZ (m + 0) n) by (f_equal; lia).
  rewrite <- fmap_add_seqZ, <- list_fmap_compose. reflexivity.
Qed.

Lemma reshape_rows2_seqZ (k : nat) (s : Z) :
  reshape_rows2 (seqZ s (2 * Z.of_nat k))
  = Some ((λ i, (s + 2 * i, s + 2 * i + 1)) <$> seqZ 0 (Z.of_nat k)).
Proof.
  revert s. induction k as [|k IH]; intros s.
  - reflexivity.
  - rewrite Nat2Z.inj_succ, <- Z.add_1_r.
    rewrite seqZ_two_more by lia. cbn [reshape_rows2].
    rewrite IH. cbn [fmap option_fmap option_map].
    rewrite (seqZ_cons 0 (Z.of_nat k + 1)) by lia.
    rewrite fmap_cons. f_equal.
    replace (Z.pred (Z.of_nat k + 1)) with (Z.of_nat k) by lia.
    f_equal; [f_equal; lia|].
    rewrite (seqZ_shift _ _ (Z.succ 0)).
    apply list_fmap_ext. intros _ i _. f_equal; lia.
Qed.

Lemma seed_block_rows (s n : Z) :
  0 ≤ n →
  (λ r : Z * Z, (Some r.1, Some r.2)) <$>
    ((λ i, (s + 2 * i, s + 2 * i + 1)) <$> seqZ 0 n) = seed_block s n.
Proof.
  intros _. unfold seed_block. rewrite <- list_fmap_compose. reflexivity.
Qed.

Lemma fits_int64_true (z : Z) : - 2 ^ 63 ≤ z < 2 ^ 63 → fits_int64 z = true.
Proof. intros H. unfold fits_int64. apply andb_true_intro. split; lia. Qed.

(** Inside the [int64] range [np.arange] is the run of integers. *)
Lemma arange_int64 (start stop : Z) :
  - 2 ^ 63 ≤ start < 2 ^ 63 → - 2 ^ 63 ≤ stop < 2 ^ 63 →
  arange start stop = seqZ start (stop - start).
Proof.
  intros H1 H2. unfold arange, arange_dtype.
  by rewrite !fits_int64_true.
Qed.

Lemma arange_length (start stop : Z) :
  length (arange start stop) = Z.to_nat (stop - start).
Proof.
  unfold arange. destruct (arange_dtype start stop);
    by rewrite ?length_fmap, length_seqZ.
Qed.

(** [reshape(-1, 2)] succeeds on every array of even size. *)
Lemma reshape_rows2_even (k : nat) (a : list Z) :
  length a = (2 * k)%nat → is_Some (reshape_rows2 a).
Proof.
  revert a. induction k as [|k IH]; intros a Ha.
  - destruct a; [by eexists | done].
  - destruct a as [|x [|y r]]; [done | cbn in Ha; lia |].
    destruct (IH r) as [rows Hr]; [cbn in Ha; lia|].
    cbn [reshape_rows2]. rewrite Hr. by eexists.
Qed.

(** With a base set, a request never raises: it returns what [dispensed]
    describes and moves the base by twice the count. *)
Lemma map_with_seeds_dispensed (w : World) (base n : Z) :
  NEXT_MAP_SEED w = Some base →
  map_with_seeds n w = (inr (dispensed base n), with_seed (Some (base + 2 * n)) w).
Proof.
  intros Hb. unfold map_with_seeds, dispensed, bind, get. rewrite Hb.
  destruct (reshape_rows2_even (Z.to_nat n) (arange base (base + 2 * n)))
    as [rows Hrows].
  - rewrite arange_length. lia.
  - by rewrite Hrows.
Qed.

Lemma dispensed_int64 (base n : Z) :
  0 ≤ n → - 2 ^ 63 ≤ base → base + 2 * n < 2 ^ 63 →
  dispensed base n = seed_block base n.
Proof.
  intros Hn Hlo Hhi. unfold dispensed. rewrite arange_int64 by lia.
  replace (base + 2 * n - base) with (2 * Z.of_nat (Z.to_nat n)) by lia.
  rewrite reshape_rows2_seqZ. rewrite Z2Nat.id by lia.
  cbn. by rewrite seed_block_rows.
Qed.

Lemma dispensed_nonpositive (base n : Z) : n ≤ 0 → dispensed base n = [].
Proof.
  intros Hn. unfold dispensed.
  assert (H : arange base (base + 2 * n) = []).
  { apply length_zero_iff_nil. rewrite arange_length. lia. }
  by rewrite H.
Qed.

(** With a base set and the request inside the [int64] range, a request for
    [n >= 0] seeds returns the block at the base and moves the base past
    it. *)
Lemma map_with_seeds_base (w : World) (base n : Z) :
  NEXT_MAP_SEED w = Some base → 0 ≤ n →
  - 2 ^ 63 ≤ base → base + 2 * n < 2 ^ 63 →
  map_with_seeds n w = (inr (seed_block base n), with_seed (Some (base + 2 * n)) w).
Proof.
  intros Hb Hn Hlo Hhi.
  by rewrite (map_with_seeds_dispensed w base n Hb), dispensed_int64.
Qed.

(** Without a base, a request returns sentinels and leaves the state alone. *)
Lemma map_with_seeds_unset (w : World) (n : Z) :
  NEXT_MAP_SEED w = None →
  map_with_seeds n w = (inr (sentinel_block n), w).
Proof.
  intros Hb. unfold map_with_seeds, bind, get. rewrite Hb. reflexivity.
Qed.

Lemma components_seed_block (base : Z) (k : nat) :
  components (seed_block base (Z.of_nat k)) = Some <$> seqZ base (2 * Z.of_nat k).
Proof.
  unfold components, seed_block. revert base.
  induction k as [|k IH]; intros base; [reflexivity|].
  rewrite Nat2Z.inj_succ, <- Z.add_1_r.
  rewrite seqZ_two_more by lia.
  rewrite (seqZ_cons 0 (Z.of_nat k + 1)) by lia.
  replace (Z.pred (Z.of_nat k + 1)) with (Z.of_nat k) by lia.
  rewrite fmap_cons, bind_cons. cbn [app fst snd].
  rewrite !fmap_cons. f_equal; [f_equal; lia|]. f_equal; [f_equal; lia|].
  rewrite <- IH. rewrite (seqZ_shift _ _ (Z.succ 0)).
  f_equal. apply list_fmap_ext. intros _ i _. f_equal; f_equal; lia.
Qed.

Lemma components_seed_block_Z (base n : Z) :
  0 ≤ n → components (seed_block base n) = Some <$> seqZ base (2 * n).
Proof.
  intros Hn. rewrite <- (Z2Nat.id n) by lia. apply components_seed_block.
Qed.

(** Leaving a scope normally puts back the base found on entry, whatever the
    enclosed work did to the base in between. *)
Lemma map_seed_manager_restores_on_return {A} (s : option Z) (body : M A)
    (w w' : World) (a : A) :
  body (with_seed s w) = (inr a, w') →
  map_seed_manager s body w = (inr a, with_seed (NEXT_MAP_SEED w) w').
Proof.
  intros H. unfold map_seed_manager, with_contextmanager.
  cbn. rewrite H. reflexivity.
Qed.

(** When the enclosed work raises, the scope is left in the state the work
    stopped in: the code after the [yield] is skipped. *)
Lemma map_seed_manager_on_raise {A} (s : option Z) (body : M A)
    (w w' : World) (e : Exc) :
  body (with_seed s w) = (inl e, w') →
  map_seed_manager s body w = (inl e, w').
Proof.
  intros H. unfold map_seed_manager, with_contextmanager.
  cbn. rewrite H. reflexivity.
Qed.

Lemma repeat_map_with_seeds_unset (k : nat) (n : Z) (w : World) :
  NEXT_MAP_SEED w = None →
  repeat_map_with_seeds k n w = (inr (replicate k (sentinel_block n)), w).
Proof.
  intros Hb. induction k as [|k IH]; [reflexivity|].
  cbn [repeat_map_with_seeds].
  rewrite (bind_ok _ _ _ _ _ (map_with_seeds_unset w n Hb)).
  rewrite (bind_ok _ _ _ _ _ IH). reflexivity.
Qed.

(** ** Seed sequencing: scopes and requests *)

(** C1, as the code has it.  In a scope entered with base [s0], a request
    for [n1] seeds followed by a request for [n2] seeds (both positive), all
    of it inside the [int64] range ([-2^63 <= s0] and
    [s0 + 2 n1 + 2 n2 <= 2^63 - 1]), returns the blocks whose pair [i] is
    [(base + 2i, base + 2i + 1)]; their integer components are
    [s0, ..., s0 + 2 n1 - 1] and then [s0 + 2 n1, ..., s0 + 2 n1 + 2 n2 - 1],
    two contiguous ranges with no common element; the base moves forward by
    twice the count after each request. *)
Theorem seed_blocks_contiguous_disjoint (w : World) (s0 n1 n2 : Z) :
  0 < n1 → 0 < n2 →
  - 2 ^ 63 ≤ s0 → s0 + 2 * n1 + 2 * n2 < 2 ^ 63 →
  let w0 := (map_seed_manager_enter (Some s0) w).2 in
  let w1 := with_seed (Some (s0 + 2 * n1)) w0 in
  let w2 := with_seed (Some (s0 + 2 * n1 + 2 * n2)) w0 in
  NEXT_MAP_SEED w0 = Some s0
  ∧ map_with_seeds n1 w0 = (inr (seed_block s0 n1), w1)
  ∧ map_with_seeds n2 w1 = (inr (seed_block (s0 + 2 * n1) n2), w2)
  ∧ (∀ i, 0 ≤ i < n1 →
       seed_block s0 n1 !! Z.to_nat i
       = Some (Some (s0 + 2 * i), Some (s0 + 2 * i + 1)))
  ∧ (∀ i, 0 ≤ i < n2 →
       seed_block (s0 + 2 * n1) n2 !! Z.to_nat i
       = Some (Some (s0 + 2 * n1 + 2 * i), Some (s0 + 2 * n1 + 2 * i + 1)))
  ∧ length (seed_block s0 n1) = Z.to_nat n1
  ∧ length (seed_block (s0 + 2 * n1) n2) = Z.to_nat n2
  ∧ components (seed_block s0 n1) = Some <$> seqZ s0 (2 * n1)
  ∧ components (seed_block (s0 + 2 * n1) n2)
    = Some <$> seqZ (s0 + 2 * n1) (2 * n2)
  ∧ (∀ x, x ∈ components (seed_block s0 n1) →
          x ∉ components (seed_block (s0 + 2 * n1) n2))
  ∧ map_seed_manager (Some s0)
      (a <- map_with_seeds n1 ;; b <- map_with_seeds n2 ;; ret (a, b)) w
    = (inr (seed_block s0 n1, seed_block (s0 + 2 * n1) n2), w).
Proof.
  intros H1 H2 Hlo Hhi w0 w1 w2.
  assert (Hw0 : NEXT_MAP_SEED w0 = Some s0) by reflexivity.
  assert (Hw1 : NEXT_MAP_SEED w1 = Some (s0 + 2 * n1)) by reflexivity.
  assert (R1 : map_with_seeds n1 w0 = (inr (seed_block s0 n1), w1))
    by (apply map_with_seeds_base; [done | lia..]).
  assert (R2 : map_with_seeds n2 w1 = (inr (seed_block (s0 + 2 * n1) n2), w2)).
  { rewrite (map_with_seeds_base w1 (s0 + 2 * n1) n2 Hw1) by lia. reflexivity. }
  assert (L : ∀ b n i, 0 ≤ i < n →
            seed_block b n !! Z.to_nat i = Some (Some (b + 2 * i), Some (b + 2 * i + 1))).
  { intros b n i Hi. unfold seed_block. rewrite list_lookup_fmap.
    rewrite lookup_seqZ_lt by lia. cbn. rewrite Z2Nat.id by lia. reflexivity. }
  split_and!; try done.
  - by apply L.
  - by apply L.
  - unfold seed_block. by rewrite length_fmap, length_seqZ.
  - unfold seed_block. by rewrite length_fmap, length_seqZ.
  - apply components_seed_block_Z. lia.
  - apply components_seed_block_Z. lia.
  - intros x. rewrite !components_seed_block_Z by lia.
    rewrite !list_elem_of_fmap. intros (a & -> & Ha) (b & Hb & Hb').
    apply elem_of_seqZ in Ha. apply elem_of_seqZ in Hb'.
    assert (a = b) by congruence. lia.
  - unfold map_seed_manager, with_contextmanager. cbn.
    fold w0. rewrite (bind_ok _ _ _ _ _ R1). rewrite (bind_ok _ _ _ _ _ R2).
    cbn. f_equal. by destruct w.
Qed.

Lemma seed_blocks_contiguous_disjoint_witness :
  map_with_seeds 2 (with_seed (Some 10) demo_world)
  = (inr [(Some 10, Some 11); (Some 12, Some 13)], with_seed (Some 14) demo_world)
  ∧ map_with_seeds 3 (with_seed (Some 14) demo_world)
  = (inr [(Some 14, Some 15); (Some 16, Some 17); (Some 18, Some 19)],
     with_seed (Some 20) demo_world).
Proof.
  destruct (seed_blocks_contiguous_disjoint demo_world 10 2 3)
    as (_ & R1 & R2 & _); [lia | lia | lia | lia |].
  split; [exact R1 | exact R2].
Defined.

(** C1, counterexample to the claim as stated: the base [2^63 - 2] and one
    request of one seed.  The stop value [2^63] does not fit [int64], so
    [np.arange] returns a [float64] array, in which [2^63 - 2] and [2^63 - 1]
    are both stored as [2^63]: the pair handed out is [(2^63, 2^63)], not
    [(s0, s0 + 1)]. *)
Lemma seed_pair_collapses_past_int64 :
  edge_scenario demo_world = (inr [(Some (2 ^ 63), Some (2 ^ 63))], demo_world)
  ∧ seed_block (2 ^ 63 - 2) 1 = [(Some (2 ^ 63 - 2), Some (2 ^ 63 - 1))]
  ∧ (edge_scenario demo_world).1 ≠ inr (seed_block (2 ^ 63 - 2) 1).
Proof. split_and!; by vm_compute. Qed.

(** C2.  Scope 5, one request; nested scope 100, one request; after the nested
    scope is left, one more request: the three requests return [(5, 6)],
    [(100, 101)] and [(7, 8)], so the outer counter resumes where it stopped,
    and the base found before the outer scope is back afterwards. *)
Theorem nesting_resumes_outer_counter (w : World) :
  nesting_scenario w
  = (inr ([(Some 5, Some 6)], [(Some 100, Some 101)], [(Some 7, Some 8)]), w).
Proof. destruct w. reflexivity. Qed.

(** C3.  A scope whose enclosed work raises is left without running the code
    after the [yield]: in a process with no base, entering scope 5, dispensing
    one seed and then failing leaves the base at 7 instead of putting the
    unset base back. *)
Theorem scope_not_restored_when_body_raises (w : World) :
  failing_scenario w
  = (inl (ValueError "preprocessor failed"), with_seed (Some 7) w)
  ∧ NEXT_MAP_SEED demo_world = None
  ∧ NEXT_MAP_SEED (failing_scenario demo_world).2 = Some 7.
Proof. split_and!; reflexivity. Qed.

(** C4.  With no base set, any number [k] of requests for [n >= 1] seeds each
    return [n] sentinel pairs, both components unset, and leave the whole
    state as it was; the same holds inside a scope entered without a seed. *)
Theorem unset_base_requests_idempotent (w : World) (n : Z) (k : nat) :
  1 ≤ n →
  NEXT_MAP_SEED w = None →
  repeat_map_with_seeds k n w = (inr (replicate k (sentinel_block n)), w)
  ∧ Z.of_nat (length (sentinel_block n)) = n
  ∧ (∀ s, s ∈ sentinel_block n → s = (None, None))
  ∧ (∀ w0 : World,
       map_seed_manager None (repeat_map_with_seeds k n) w0
       = (inr (replicate k (sentinel_block n)), w0)).
Proof.
  intros Hn Hb. split_and!.
  - by apply repeat_map_with_seeds_unset.
  - unfold sentinel_block. rewrite length_replicate. lia.
  - unfold sentinel_block. intros s Hs. by apply elem_of_replicate in Hs as [-> _].
  - intros w0.
    rewrite (map_seed_manager_restores_on_return None _ w0 (with_seed None w0)
               (replicate k (sentinel_block n))).
    + f_equal. by destruct w0.
    + by apply repeat_map_with_seeds_unset.
Qed.

Lemma unset_base_requests_idempotent_witness :
  repeat_map_with_seeds 3 2 demo_world
  = (inr (replicate 3 [(None, None); (None, None)]), demo_world).
Proof.
  destruct (unset_base_requests_idempotent demo_world 2 3) as (R & _);
    [lia | reflexivity | exact R].
Defined.

(** ** Directory resolution *)

Lemma data_dir_eq (self : LazyTfdsLoader) (w : World) :
  data_dir self w = (inr (resolved_dir self w), after_data_dir self w).
Proof.
  unfold data_dir, resolved_dir, after_data_dir, bind, get.
  destruct (truthy_str (TFDS_DATA_DIR_OVERRIDE w)); [|reflexivity].
  destruct (truthy_str (_data_dir self)); reflexivity.
Qed.

Lemma after_data_dir_override (self : LazyTfdsLoader) (w : World) :
  TFDS_DATA_DIR_OVERRIDE (after_data_dir self w) = TFDS_DATA_DIR_OVERRIDE w.
Proof. unfold after_data_dir. by case_match. Qed.

Lemma after_data_dir_memo (self : LazyTfdsLoader) (w : World) :
  MEMOIZED_BUILDERS (after_data_dir self w) = MEMOIZED_BUILDERS w.
Proof. unfold after_data_dir. by case_match. Qed.

Lemma after_data_dir_catalog (self : LazyTfdsLoader) (w : World) :
  catalog (after_data_dir self w) = catalog w.
Proof. unfold after_data_dir. by case_match. Qed.

Lemma after_data_dir_calls (self : LazyTfdsLoader) (w : World) :
  builder_calls (after_data_dir self w) = builder_calls w.
Proof. unfold after_data_dir. by case_match. Qed.

Lemma resolved_dir_stable (self : LazyTfdsLoader) (w w' : World) :
  TFDS_DATA_DIR_OVERRIDE w' = TFDS_DATA_DIR_OVERRIDE w →
  resolved_dir self w' = resolved_dir self w.
Proof. unfold resolved_dir. by intros ->. Qed.

Lemma app_singleton_neq {A} (l : list A) (x : A) : l ++ [x] ≠ l.
Proof.
  intros H. apply (f_equal length) in H. rewrite length_app in H. cbn in H. lia.
Qed.

(** C7, as the code has it.  [data_dir] returns the override whenever the
    override is set, that is a non-empty string, and the loader's own
    directory otherwise; it writes one warning exactly when the override and
    the loader's own directory are both set, whether or not they differ, and
    changes nothing else.  [set_tfds_data_dir_override] stores its argument. *)
Theorem data_dir_resolution (self : LazyTfdsLoader) (w : World) :
  data_dir self w
  = (inr (if truthy_str (TFDS_DATA_DIR_OVERRIDE w)
          then TFDS_DATA_DIR_OVERRIDE w else _data_dir self),
     if truthy_str (TFDS_DATA_DIR_OVERRIDE w) && truthy_str (_data_dir self)
     then with_log (LogWarning (override_warning self w)) w else w)
  ∧ (is_set (TFDS_DATA_DIR_OVERRIDE w) →
     (data_dir self w).1 = inr (TFDS_DATA_DIR_OVERRIDE w))
  ∧ (¬ is_set (TFDS_DATA_DIR_OVERRIDE w) →
     data_dir self w = (inr (_data_dir self), w))
  ∧ (warns self w ↔
     is_set (TFDS_DATA_DIR_OVERRIDE w) ∧ is_set (_data_dir self))
  ∧ (∀ x, TFDS_DATA_DIR_OVERRIDE (set_tfds_data_dir_override x w).2 = x).
Proof.
  rewrite data_dir_eq. unfold resolved_dir, after_data_dir, warns, is_set.
  split_and!; try done.
  - by intros ->.
  - intros H. apply not_true_is_false in H. by rewrite H.
  - rewrite data_dir_eq. unfold after_data_dir. split.
    + intros [msg Hm]. destruct (truthy_str (TFDS_DATA_DIR_OVERRIDE w)),
        (truthy_str (_data_dir self)); cbn in Hm; try done;
        symmetry in Hm; by apply app_singleton_neq in Hm.
    + intros [-> ->]. by eexists.
Qed.

(** C7, counterexample to the claim as stated: a loader constructed with
    ["/data"] while the override is ["/data"] too.  Both directories are set
    and they do not differ, and a warning is written all the same. *)
Lemma data_dir_warns_on_equal_directories :
  let w := with_override (Some "/data") demo_world in
  _data_dir dir_loader = TFDS_DATA_DIR_OVERRIDE w
  ∧ data_dir dir_loader w
    = (inr (Some "/data"),
       with_log (LogWarning
         "Overriding TFDS data directory '/data' with '/data' for dataset 'squad'.") w)
  ∧ ¬ (warns dir_loader w ↔
       is_set (TFDS_DATA_DIR_OVERRIDE w) ∧ is_set (_data_dir dir_loader)
       ∧ _data_dir dir_loader ≠ TFDS_DATA_DIR_OVERRIDE w).
Proof.
  split_and!; [reflexivity | reflexivity |].
  intros [H _]. destruct H as (_ & _ & H); [|by apply H].
  by eexists.
Qed.

(** ** Split resolution *)

(** C8, as the code has it.  [_map_split] returns the mapped expression when
    the name is a key of the split map, returns the name unchanged when the
    loader has no split map or an empty one, and raises [KeyError] when a
    non-empty split map does not have the name.  With
    [{"validation": "train[:1%]"}], ["validation"] resolves to
    ["train[:1%]"]. *)
Theorem map_split_resolution (self : LazyTfdsLoader) (split : string) (w : World) :
  (∀ m s, _split_map self = Some m → m !! split = Some s →
          _map_split self split w = (inr s, w))
  ∧ (_split_map self = None → _map_split self split w = (inr split, w))
  ∧ (_split_map self = Some ∅ → _map_split self split w = (inr split, w))
  ∧ (∀ m, _split_map self = Some m → m ≠ ∅ → m !! split = None →
          _map_split self split w = (inl (KeyError split), w))
  ∧ _map_split mapped_loader "validation" w = (inr "train[:1%]", w).
Proof.
  unfold _map_split, truthy_dict. split_and!.
  - intros m s -> Hs. cbn. case_bool_decide as Hm.
    + subst m. by rewrite lookup_empty in Hs.
    + cbn. by rewrite Hs.
  - by intros ->.
  - by intros ->.
  - intros m -> Hm Hs. cbn. rewrite bool_decide_false by done. cbn. by rewrite Hs.
  - reflexivity.
Qed.

(** C8, counterexample to the claim as stated: with the split map
    [{"validation": "train[:1%]"}] the name ["train"] is not returned
    unchanged; the lookup raises [KeyError]. *)
Lemma map_split_unmapped_name_raises :
  _map_split mapped_loader "train" demo_world = (inl (KeyError "train"), demo_world)
  ∧ (_map_split mapped_loader "train" demo_world).1 ≠ inr "train".
Proof. split; [vm_compute; reflexivity | vm_compute; discriminate]. Qed.

(** ** The memoized builder *)

(** The key under which [builder] memoizes in state [w]. *)
Lemma builder_key_eq (self : LazyTfdsLoader) (w : World) :
  builder_key self w
  = (inr (name self, resolved_dir self w), after_data_dir self w).
Proof. unfold builder_key. by rewrite (bind_ok _ _ _ _ _ (data_dir_eq self w)). Qed.

(** [builder] when the key is in the dictionary: the cached object comes back
    and [tfds.builder] is not called. *)
Lemma builder_hit (self : LazyTfdsLoader) (w : World) (b : BuilderObj) :
  MEMOIZED_BUILDERS w !! (name self, resolved_dir self w) = Some b →
  builder self w = (inr b, after_data_dir self w).
Proof.
  intros Hb.
  unfold builder, builder_key, builder_absent, builder_lookup, bind, get, ret.
  rewrite data_dir_eq. cbv beta iota.
  rewrite after_data_dir_memo, Hb, bool_decide_false by done.
  cbv beta iota. by rewrite after_data_dir_memo, Hb.
Qed.

(** [builder] when the key is not in the dictionary and [tfds.builder]
    succeeds: one call, a new object, stored under the key and returned.
    [data_dir] is evaluated a second time for the call. *)
Lemma builder_miss (self : LazyTfdsLoader) (w : World) (bd : Builder) :
  MEMOIZED_BUILDERS w !! (name self, resolved_dir self w) = None →
  catalog w (name self) (resolved_dir self w) = Some bd →
  builder self w
  = (inr (mkBuilderObj (builder_calls w) bd),
     with_memo (<[(name self, resolved_dir self w) := mkBuilderObj (builder_calls w) bd]>
                  (MEMOIZED_BUILDERS w))
               (with_call (after_data_dir self (after_data_dir self w)))).
Proof.
  intros Hk Hc.
  unfold builder, builder_key, builder_absent, builder_construct, builder_store,
    builder_lookup, tfds_builder, bind, get, modify, ret.
  rewrite data_dir_eq. cbv beta iota.
  rewrite after_data_dir_memo, Hk, bool_decide_true by done.
  cbv beta iota. rewrite data_dir_eq.
  rewrite (resolved_dir_stable self w) by apply after_data_dir_override.
  rewrite !after_data_dir_catalog, Hc, !after_data_dir_calls.
  cbn. rewrite lookup_insert_eq, !after_data_dir_memo. reflexivity.
Qed.

(** [builder] when [tfds.builder] raises: the exception propagates and
    nothing is stored. *)
Lemma builder_miss_raises (self : LazyTfdsLoader) (w : World) :
  MEMOIZED_BUILDERS w !! (name self, resolved_dir self w) = None →
  catalog w (name self) (resolved_dir self w) = None →
  builder self w
  = (inl (BuilderError (name self)),
     with_call (after_data_dir self (after_data_dir self w))).
Proof.
  intros Hk Hc.
  unfold builder, builder_key, builder_absent, builder_construct, builder_store,
    builder_lookup, tfds_builder, bind, get, modify, ret.
  rewrite data_dir_eq. cbv beta iota.
  rewrite after_data_dir_memo, Hk, bool_decide_true by done.
  cbv beta iota. rewrite data_dir_eq.
  rewrite (resolved_dir_stable self w) by apply after_data_dir_override.
  by rewrite !after_data_dir_catalog, Hc.
Qed.

(** Whatever [builder] returns is in the dictionary afterwards, under the key
    the next call will compute. *)
Lemma builder_returns_cached (self : LazyTfdsLoader) (w w1 : World) (b : BuilderObj) :
  builder self w = (inr b, w1) →
  MEMOIZED_BUILDERS w1 !! (name self, resolved_dir self w1) = Some b
  ∧ TFDS_DATA_DIR_OVERRIDE w1 = TFDS_DATA_DIR_OVERRIDE w.
Proof.
  intros H.
  destruct (MEMOIZED_BUILDERS w !! (name self, resolved_dir self w)) as [b'|] eqn:Hk.
  - rewrite (builder_hit _ _ _ Hk) in H. simplify_eq.
    rewrite after_data_dir_override.
    rewrite (resolved_dir_stable self w) by apply after_data_dir_override.
    by rewrite after_data_dir_memo.
  - destruct (catalog w (name self) (resolved_dir self w)) as [bd|] eqn:Hc.
    + rewrite (builder_miss _ _ _ Hk Hc) in H. simplify_eq. cbn.
      rewrite !after_data_dir_override.
      rewrite (resolved_dir_stable self w)
        by (cbn; by rewrite !after_data_dir_override).
      by rewrite lookup_insert_eq.
    + by rewrite (builder_miss_raises _ _ Hk Hc) in H.
Qed.

(** A second call after a successful one returns the same object and does not
    call [tfds.builder]. *)
Lemma builder_again (self : LazyTfdsLoader) (w w1 : World) (b : BuilderObj) :
  builder self w = (inr b, w1) →
  builder self w1 = (inr b, after_data_dir self w1).
Proof.
  intros H. apply builder_returns_cached in H as [H _]. by apply builder_hit.
Qed.

(** C5.  Starting from a dictionary without the loader's key, with
    [tfds.builder] able to construct the dataset, two calls of [builder] in a
    row call [tfds.builder] once in all, and both return the same object: the
    one constructed by that call and stored under the key.  A call that finds
    its key in the dictionary returns the stored object and does not call
    [tfds.builder]. *)
Theorem builder_memoized (self : LazyTfdsLoader) (w : World) (bd : Builder) :
  MEMOIZED_BUILDERS w !! (name self, resolved_dir self w) = None →
  catalog w (name self) (resolved_dir self w) = Some bd →
  (∃ (b : BuilderObj) (w1 w2 : World),
      builder self w = (inr b, w1)
      ∧ builder self w1 = (inr b, w2)
      ∧ builder_calls w1 = S (builder_calls w)
      ∧ builder_calls w2 = S (builder_calls w)
      ∧ contents b = bd
      ∧ ident b = builder_calls w
      ∧ MEMOIZED_BUILDERS w1 !! (name self, resolved_dir self w) = Some b
      ∧ MEMOIZED_BUILDERS w2 = MEMOIZED_BUILDERS w1)
  ∧ (∀ (w' : World) (b' : BuilderObj),
      MEMOIZED_BUILDERS w' !! (name self, resolved_dir self w') = Some b' →
      (builder self w').1 = inr b'
      ∧ builder_calls (builder self w').2 = builder_calls w'
      ∧ MEMOIZED_BUILDERS (builder self w').2 = MEMOIZED_BUILDERS w').
Proof.
  intros Hk Hc. split.
  - pose proof (builder_miss _ _ _ Hk Hc) as H1.
    pose proof (builder_again _ _ _ _ H1) as H2.
    eexists _, _, _. split; [exact H1|]. split; [exact H2|].
    rewrite after_data_dir_calls, after_data_dir_memo. cbn.
    rewrite !after_data_dir_calls, lookup_insert_eq. done.
  - intros w' b' Hb. rewrite (builder_hit _ _ _ Hb). cbn.
    by rewrite after_data_dir_calls, after_data_dir_memo.
Qed.

Lemma builder_memoized_witness :
  ∃ (b : BuilderObj) (w1 w2 : World),
    builder demo_loader demo_world = (inr b, w1)
    ∧ builder demo_loader w1 = (inr b, w2)
    ∧ builder_calls w1 = 1%nat
    ∧ builder_calls w2 = 1%nat.
Proof.
  destruct (builder_memoized demo_loader demo_world demo_builder)
    as [(b & w1 & w2 & H1 & H2 & H3 & H4 & _) _]; [reflexivity | reflexivity |].
  exists b, w1, w2. split_and!; assumption.
Defined.

(** ** Shard listing and size *)


Lemma map_split_world (self : LazyTfdsLoader) (split : string) (w : World) :
  _map_split self split w = ((_map_split self split w).1, w).
Proof.
  unfold _map_split. destruct (truthy_dict (_split_map self)); [|done].
  by destruct (default ∅ (_split_map self) !! split).
Qed.


Lemma getitem_world (b : Builder) (key : string) (w : World) :
  getitem b key w = ((getitem b key w).1, w).
Proof.
  unfold getitem. destruct (splits b !! key); [done|].
  by destruct (split_instruction b key).
Qed.



(** What [logging.fatal] does, by logging configuration. *)
Lemma logging_fatal_eq (msg : string) (w : World) :
  logging_fatal msg w
  = (if absl_handler_installed w then inl (FatalError msg) else inr tt,
     with_log (LogFatal msg) w).
Proof.
  unfold logging_fatal, bind, modify, get, raise, ret. cbn.
  by destruct (absl_handler_installed w).
Qed.








(** ** Callers of [builder] that overlap *)

(** C6, counterexample to the claim as stated: two callers of [builder] for
    a key that is not in the dictionary, scheduled so that both test the
    dictionary before either stores.  [tfds.builder] runs twice and the two
    callers return different objects. *)
Lemma overlapping_builders_construct_twice :
  let st := run_schedule demo_loader racy_schedule (spawn 2 demo_world) in
  MEMOIZED_BUILDERS demo_world !! (name demo_loader, resolved_dir demo_loader demo_world)
  = None
  ∧ st.1 = [Finished (inr (mkBuilderObj 0 demo_builder));
            Finished (inr (mkBuilderObj 1 demo_builder))]
  ∧ builder_calls st.2 = 2%nat
  ∧ builder_calls demo_world = 0%nat.
Proof. split_and!; by vm_compute. Qed.

Lemma builder_construct_eq (self : LazyTfdsLoader) (w : World) (bd : Builder) :
  catalog w (name self) (resolved_dir self w) = Some bd →
  builder_construct self w
  = (inr (mkBuilderObj (builder_calls w) bd), with_call (after_data_dir self w)).
Proof.
  intros Hc. unfold builder_construct, tfds_builder, bind, get, modify, ret.
  rewrite data_dir_eq. cbv beta iota.
  by rewrite after_data_dir_catalog, Hc, after_data_dir_calls.
Qed.

Lemma pending_insert (pcs : list Pc) (i : nat) (pc pc' : Pc) :
  pcs !! i = Some pc →
  (pending (<[i := pc']> pcs) + (if may_construct pc then 1 else 0)
   = pending pcs + (if may_construct pc' then 1 else 0))%nat.
Proof.
  revert i. induction pcs as [|q pcs IH]; intros i Hi; [done|].
  destruct i as [|i].
  - cbn in *. simplify_eq.
    destruct (may_construct pc), (may_construct pc'); lia.
  - specialize (IH i Hi).
    change (<[S i := pc']> (q :: pcs)) with (q :: <[i := pc']> pcs).
    cbn [pending].
    destruct (may_construct pc), (may_construct pc'), (may_construct q); lia.
Qed.

Lemma pc_inv_mono (key : string * option string) (w0 w w' : World)
    (bd : Builder) (pc : Pc) :
  (builder_calls w ≤ builder_calls w')%nat →
  (is_Some (MEMOIZED_BUILDERS w !! key) → is_Some (MEMOIZED_BUILDERS w' !! key)) →
  pc_inv key w0 w bd pc → pc_inv key w0 w' bd pc.
Proof.
  intros Hc Hm. unfold pc_inv, built_between.
  destruct pc as [| | | | |r]; try done.
  - intros (-> & ? & ?). split_and!; try done; lia.
  - intros (-> & ?). split; [done|]. by apply Hm.
  - intros (b & -> & ? & ?). exists b. split_and!; try done; lia.
Qed.

(** One step of one caller keeps what the invariant says of the state and
    establishes what it says of the caller's next program point. *)
Lemma thread_step_inv (self : LazyTfdsLoader) (w0 w : World) (bd : Builder)
    (pc : Pc) :
  let key := (name self, resolved_dir self w0) in
  catalog w0 (name self) (resolved_dir self w0) = Some bd →
  TFDS_DATA_DIR_OVERRIDE w = TFDS_DATA_DIR_OVERRIDE w0 →
  catalog w = catalog w0 →
  (builder_calls w0 ≤ builder_calls w)%nat →
  (∀ b, MEMOIZED_BUILDERS w !! key = Some b → built_between w0 w bd b) →
  pc_inv key w0 w bd pc →
  let pc' := (thread_step self pc w).1 in
  let w' := (thread_step self pc w).2 in
  TFDS_DATA_DIR_OVERRIDE w' = TFDS_DATA_DIR_OVERRIDE w0
  ∧ catalog w' = catalog w0
  ∧ (builder_calls w ≤ builder_calls w')%nat
  ∧ (builder_calls w' + (if may_construct pc' then 1 else 0)
     ≤ builder_calls w + (if may_construct pc then 1 else 0))%nat
  ∧ (is_Some (MEMOIZED_BUILDERS w !! key) → is_Some (MEMOIZED_BUILDERS w' !! key))
  ∧ (∀ b, MEMOIZED_BUILDERS w' !! key = Some b → built_between w0 w' bd b)
  ∧ pc_inv key w0 w' bd pc'.
Proof.
  intros key Hcat Ho Hc Hcalls Hmemo Hpc.
  assert (Hr : resolved_dir self w = resolved_dir self w0)
    by (by apply resolved_dir_stable).
  unfold built_between in *.
  destruct pc as [|k|k|k b|k|r]; cbn [thread_step pc_inv] in *;
    unfold built_between in *.
  - unfold advance. rewrite builder_key_eq. cbn.
    rewrite after_data_dir_override, after_data_dir_catalog,
      after_data_dir_calls, after_data_dir_memo, Hr.
    by split_and!.
  - subst k. unfold advance, builder_absent, bind, get, ret. cbn.
    case_bool_decide as Hk; cbn; split_and!; try done; try lia.
    by apply not_eq_None_Some.
  - subst k. unfold advance.
    rewrite (builder_construct_eq self w bd) by (by rewrite Hr, Hc).
    cbn. rewrite after_data_dir_override, after_data_dir_catalog,
      after_data_dir_calls, after_data_dir_memo.
    split_and!; try done; try lia.
    + intros b Hb. destruct (Hmemo b Hb) as [? ?]. split; [done | lia].
    + unfold built_between. cbn. rewrite after_data_dir_calls. split; [done | lia].
  - destruct Hpc as [-> Hb]. unfold advance, builder_store, modify. cbn.
    rewrite lookup_insert_eq.
    split_and!; try done.
    by intros b' [= <-].
  - destruct Hpc as [-> [b Hb]]. unfold advance, builder_lookup, bind, get.
    rewrite Hb. cbn. split_and!; try done.
    exists b. split; [done|]. by apply Hmemo.
  - by split_and!.
Qed.

Lemma spawn_inv (self : LazyTfdsLoader) (w : World) (bd : Builder) (n : nat) :
  MEMOIZED_BUILDERS w !! (name self, resolved_dir self w) = None →
  interleaving_inv self w bd n (spawn n w).
Proof.
  intros Hk. unfold interleaving_inv, spawn. cbn.
  split_and!; try done.
  - by rewrite length_replicate.
  - apply Forall_replicate. by cbn.
  - intros b. by rewrite Hk.
  - apply Nat.eq_le_incl. f_equal. induction n as [|n IH]; [done|]. cbn. by rewrite IH.
Qed.

Lemma run_thread_inv (self : LazyTfdsLoader) (w0 : World) (bd : Builder)
    (n i : nat) (st : list Pc * World) :
  catalog w0 (name self) (resolved_dir self w0) = Some bd →
  interleaving_inv self w0 bd n st →
  interleaving_inv self w0 bd n (run_thread self st i).
Proof.
  intros Hcat. destruct st as [pcs w].
  intros (Ho & Hc & Hlen & Hall & Hmemo & Hcount & Hcalls). cbn in *.
  unfold run_thread. cbn. destruct (pcs !! i) as [pc|] eqn:Hi.
  2:{ by split_and!. }
  pose proof (Forall_lookup_1 _ _ _ _ Hall Hi) as Hpc.
  pose proof (thread_step_inv self w0 w bd pc Hcat Ho Hc Hcalls Hmemo Hpc) as H.
  cbn zeta in H. destruct (thread_step self pc w) as [pc' w']. cbn in H.
  destruct H as (Ho' & Hc' & Hle & Hwt & Hsome & Hmemo' & Hpc').
  unfold interleaving_inv. cbn. split_and!; try done.
  - by rewrite length_insert.
  - apply Forall_insert; [|done].
    eapply Forall_impl; [exact Hall|]. intros q. by apply pc_inv_mono.
  - pose proof (pending_insert pcs i pc pc' Hi). lia.
  - lia.
Qed.

Lemma run_schedule_inv (self : LazyTfdsLoader) (w0 : World) (bd : Builder)
    (n : nat) (sched : list nat) (st : list Pc * World) :
  catalog w0 (name self) (resolved_dir self w0) = Some bd →
  interleaving_inv self w0 bd n st →
  interleaving_inv self w0 bd n (run_schedule self sched st).
Proof.
  intros Hcat. revert st. induction sched as [|i sched IH]; intros st Hst; [done|].
  cbn. apply IH. by apply run_thread_inv.
Qed.

(** *** Callers that do not overlap *)

Lemma run_thread_at (self : LazyTfdsLoader) (pcs : list Pc) (w : World)
    (i : nat) (pc : Pc) :
  pcs !! i = Some pc →
  run_thread self (pcs, w) i
  = (<[i := (thread_step self pc w).1]> pcs, (thread_step self pc w).2).
Proof.
  intros Hi. unfold run_thread. cbn. rewrite Hi.
  by destruct (thread_step self pc w).
Qed.

Lemma run_schedule_one_thread (self : LazyTfdsLoader) (k i : nat)
    (pcs : list Pc) (w : World) (pc : Pc) :
  pcs !! i = Some pc →
  run_schedule self (replicate k i) (pcs, w)
  = (<[i := (thread_steps self k pc w).1]> pcs, (thread_steps self k pc w).2).
Proof.
  revert pcs w pc. induction k as [|k IH]; intros pcs w pc Hi.
  - cbn. by rewrite list_insert_id.
  - cbn [replicate run_schedule foldl thread_steps].
    rewrite (run_thread_at _ _ _ _ _ Hi).
    destruct (thread_step self pc w) as [pc' w']. cbn [fst snd].
    fold (run_schedule self (replicate k i) (<[i:=pc']> pcs, w')).
    rewrite (IH _ _ pc').
    + by rewrite list_insert_insert_eq.
    + apply list_lookup_insert_eq. by eapply lookup_lt_Some.
Qed.

(** Five steps of a caller that nobody interrupts are one call of [builder]. *)
Lemma thread_steps_builder (self : LazyTfdsLoader) (w : World) :
  thread_steps self 5 AtKey w = (Finished (builder self w).1, (builder self w).2).
Proof.
  cbn [thread_steps thread_step]. unfold builder, advance, bind.
  destruct (builder_key self w) as [[e|key] w1]; [reflexivity|].
  cbn [thread_step]. unfold advance.
  destruct (builder_absent key w1) as [[e|[]] w2]; [reflexivity| |].
  - cbn [thread_step]. unfold advance.
    destruct (builder_construct self w2) as [[e|b] w3]; [reflexivity|].
    cbn [thread_step]. unfold advance.
    destruct (builder_store key b w3) as [[e|[]] w4]; [reflexivity|].
    cbn [thread_step]. unfold advance.
    destruct (builder_lookup key w4) as [[e|b'] w5]; reflexivity.
  - cbn [thread_step]. unfold advance, ret.
    destruct (builder_lookup key w2) as [[e|b'] w5]; reflexivity.
Qed.

Lemma run_schedule_app (self : LazyTfdsLoader) (s1 s2 : list nat)
    (st : list Pc * World) :
  run_schedule self (s1 ++ s2) st = run_schedule self s2 (run_schedule self s1 st).
Proof. apply foldl_app. Qed.

(** Callers that run one after the other and find the key in the dictionary
    all return the stored object; none of them calls [tfds.builder]. *)
Lemma serial_hits (self : LazyTfdsLoader) (b : BuilderObj) (m : nat)
    (done_ : list Pc) (w : World) :
  MEMOIZED_BUILDERS w !! (name self, resolved_dir self w) = Some b →
  ∃ w', run_schedule self (seq (length done_) m ≫= λ i, replicate 5 i)
                     (done_ ++ replicate m AtKey, w)
        = (done_ ++ replicate m (Finished (inr b)), w')
      ∧ builder_calls w' = builder_calls w
      ∧ MEMOIZED_BUILDERS w' = MEMOIZED_BUILDERS w.
Proof.
  revert done_ w. induction m as [|m IH]; intros done_ w Hb.
  - exists w. by cbn.
  - cbn [seq]. rewrite bind_cons.
    change (replicate (S m) AtKey) with (AtKey :: replicate m AtKey).
    change (replicate (S m) (Finished (inr b)))
      with (Finished (inr b) :: replicate m (Finished (inr b))).
    rewrite run_schedule_app.
    rewrite (run_schedule_one_thread self 5 (length done_) _ w AtKey)
      by (by apply list_lookup_middle).
    rewrite thread_steps_builder, (builder_hit _ _ _ Hb). cbn [fst snd].
    rewrite insert_app_r_alt, Nat.sub_diag by done. cbn [insert list_insert].
    rewrite (cons_middle _ done_), app_assoc.
    replace (S (length done_)) with (length (done_ ++ [Finished (inr b)]))
      by (rewrite length_app; cbn; lia).
    destruct (IH (done_ ++ [Finished (inr b)]) (after_data_dir self w))
      as (w' & Hrun & Hcalls & Hmemo).
    { rewrite after_data_dir_memo.
      by rewrite (resolved_dir_stable self w) by apply after_data_dir_override. }
    exists w'. rewrite Hrun.
    rewrite Hcalls, Hmemo, after_data_dir_calls, after_data_dir_memo.
    split_and!; try done.
    by rewrite <- app_assoc.
Qed.

(** C6, as the code has it.  [n >= 1] callers of [builder] start on a key
    that is not in the dictionary, with [tfds.builder] able to construct the
    dataset.  When the callers run one after the other, [tfds.builder] is
    called once and all of them return the object it constructed.  In any
    interleaving the property takes no lock: [tfds.builder] is called at most
    [n] times, every caller that has finished returned an object constructed
    by one of these calls for the dataset, and once all callers have finished
    at least one call was made. *)
Theorem builder_calls_under_interleaving (self : LazyTfdsLoader) (w : World)
    (bd : Builder) (n : nat) (sched : list nat) :
  MEMOIZED_BUILDERS w !! (name self, resolved_dir self w) = None →
  catalog w (name self) (resolved_dir self w) = Some bd →
  (1 ≤ n)%nat →
  let serial := run_schedule self (serial_schedule n) (spawn n w) in
  let st := run_schedule self sched (spawn n w) in
  serial.1 = replicate n (Finished (inr (mkBuilderObj (builder_calls w) bd)))
  ∧ builder_calls serial.2 = S (builder_calls w)
  ∧ (builder_calls st.2 ≤ builder_calls w + n)%nat
  ∧ (∀ pc, pc ∈ st.1 → finished pc = true →
       ∃ b, pc = Finished (inr b) ∧ contents b = bd
            ∧ (builder_calls w ≤ ident b < builder_calls st.2)%nat)
  ∧ (Forall (λ pc, finished pc = true) st.1 →
       (builder_calls w + 1 ≤ builder_calls st.2)%nat).
Proof.
  intros Hk Hc Hn serial st.
  pose proof (run_schedule_inv self w bd n sched _ Hc (spawn_inv self w bd n Hk))
    as (_ & _ & Hlen & Hall & _ & Hcount & _).
  fold st in Hlen, Hall, Hcount.
  assert (Hfin : ∀ pc, pc ∈ st.1 → finished pc = true →
            ∃ b, pc = Finished (inr b) ∧ contents b = bd
                 ∧ (builder_calls w ≤ ident b < builder_calls st.2)%nat).
  { intros pc Hin Hf. rewrite Forall_forall in Hall. specialize (Hall pc Hin).
    destruct pc as [| | | | |r]; try done.
    destruct Hall as (b & -> & Hb). by exists b. }
  assert (Hserial : ∃ w', serial
            = (replicate n (Finished (inr (mkBuilderObj (builder_calls w) bd))), w')
            ∧ builder_calls w' = S (builder_calls w)).
  { subst serial. destruct n as [|m]; [lia|].
    unfold serial_schedule, spawn. cbn [seq]. rewrite bind_cons.
    change (replicate (S m) AtKey) with (AtKey :: replicate m AtKey).
    rewrite run_schedule_app.
    rewrite (run_schedule_one_thread self 5 0 _ w AtKey) by done.
    rewrite thread_steps_builder, (builder_miss _ _ _ Hk Hc). cbn [fst snd].
    cbn [insert list_insert].
    set (b := mkBuilderObj (builder_calls w) bd).
    set (w1 := with_memo _ _).
    destruct (serial_hits self b m [Finished (inr b)] w1) as (w' & Hrun & Hcalls & _).
    { subst w1. cbn.
      rewrite (resolved_dir_stable self w)
        by (cbn; by rewrite !after_data_dir_override).
      by rewrite lookup_insert_eq. }
    exists w'. cbn [length app] in Hrun.
    rewrite Hrun. split; [done|].
    rewrite Hcalls. subst w1. cbn. by rewrite !after_data_dir_calls. }
  destruct Hserial as (w' & -> & Hw'). cbn [fst snd].
  split_and!; try done.
  - pose proof (Nat.le_0_l (pending st.1)). lia.
  - intros Hdone. destruct (st.1) as [|pc pcs] eqn:Hst; [cbn in Hlen; lia|].
    apply Forall_cons in Hdone as [Hpc _].
    destruct (Hfin pc) as (b & _ & _ & Hb); [left | done |]. lia.
Qed.

Lemma builder_calls_under_interleaving_witness :
  (run_schedule demo_loader (serial_schedule 2) (spawn 2 demo_world)).1
  = [Finished (inr (mkBuilderObj 0 demo_builder));
     Finished (inr (mkBuilderObj 0 demo_builder))]
  ∧ builder_calls (run_schedule demo_loader (serial_schedule 2) (spawn 2 demo_world)).2
    = 1%nat
  ∧ (builder_calls (run_schedule demo_loader racy_schedule (spawn 2 demo_world)).2
     ≤ 2)%nat.
Proof.
  destruct (builder_calls_under_interleaving demo_loader demo_world demo_builder
              2 racy_schedule) as (H1 & H2 & H3 & _);
    [reflexivity | reflexivity | lia |].
  split_and!; [exact H1 | exact H2 | exact H3].
Defined.

(** * Further properties *)

(** ** Pipelines of seeded stages *)

Lemma with_seed_own (w : World) (base : Z) :
  NEXT_MAP_SEED w = Some base → with_seed (Some (base + 2 * 0)) w = w.
Proof. destruct w. cbn. intros ->. unfold with_seed. cbn. do 2 f_equal. lia. Qed.

Lemma map_with_seeds_stages_base (counts : list Z) (w : World) (base : Z) :
  NEXT_MAP_SEED w = Some base →
  map_with_seeds_stages counts w
  = (inr (stage_dispensed base counts),
     with_seed (Some (base + 2 * total counts)) w).
Proof.
  revert w base. induction counts as [|n rest IH]; intros w base Hb.
  - cbn. unfold ret. by rewrite with_seed_own.
  - cbn [map_with_seeds_stages stage_dispensed total foldr].
    rewrite (bind_ok _ _ _ _ _ (map_with_seeds_dispensed w base n Hb)).
    rewrite (bind_ok _ _ _ _ _
               (IH (with_seed (Some (base + 2 * n)) w) (base + 2 * n) eq_refl)).
    unfold ret, with_seed. cbn. fold (total rest). do 3 f_equal. lia.
Qed.

Lemma total_nonneg (counts : list Z) :
  Forall (λ n, 0 ≤ n) counts → 0 ≤ total counts.
Proof.
  induction 1 as [|n rest Hn _ IH]; [done|]. cbn. fold (total rest). lia.
Qed.

(** Inside the [int64] range the code computes the expected blocks. *)
Lemma stage_dispensed_int64 (counts : list Z) (base : Z) :
  Forall (λ n, 0 ≤ n) counts →
  - 2 ^ 63 ≤ base → base + 2 * total counts < 2 ^ 63 →
  stage_dispensed base counts = stage_blocks base counts.
Proof.
  intros H. revert base. induction H as [|n rest Hn Hrest IH]; intros base Hlo Hhi.
  - reflexivity.
  - cbn [stage_dispensed stage_blocks]. cbn [total foldr] in Hhi.
    fold (total rest) in Hhi. pose proof (total_nonneg rest Hrest).
    rewrite dispensed_int64, IH by lia. done.
Qed.

Lemma stage_blocks_components (counts : list Z) (base : Z) :
  Forall (λ n, 0 ≤ n) counts →
  stage_blocks base counts ≫= components = Some <$> seqZ base (2 * total counts).
Proof.
  intros H. revert base. induction H as [|n rest Hn Hrest IH]; intros base.
  - reflexivity.
  - cbn [stage_blocks total foldr]. fold (total rest).
    rewrite bind_cons, IH, components_seed_block_Z by done.
    pose proof (total_nonneg rest Hrest).
    replace (2 * (n + total rest)) with (2 * n + 2 * total rest) by lia.
    rewrite seqZ_app by lia. by rewrite fmap_app.
Qed.

(** X1.  Any number of stages inside one scope: when no count is negative
    and the whole run stays inside the [int64] range ([-2^63 <= s0] and
    [s0 + 2 * total <= 2^63 - 1]), the stages receive blocks of the requested
    sizes whose integer components, read in the order of the requests, are
    the contiguous run starting at the scope's seed; no integer is handed out
    twice. *)
Theorem stages_never_share_a_seed (w : World) (s0 : Z) (counts : list Z) :
  Forall (λ n, 0 ≤ n) counts →
  - 2 ^ 63 ≤ s0 → s0 + 2 * total counts < 2 ^ 63 →
  map_seed_manager (Some s0) (map_with_seeds_stages counts) w
  = (inr (stage_blocks s0 counts), w)
  ∧ length <$> stage_blocks s0 counts = Z.to_nat <$> counts
  ∧ stage_blocks s0 counts ≫= components = Some <$> seqZ s0 (2 * total counts)
  ∧ NoDup (stage_blocks s0 counts ≫= components).
Proof.
  intros H Hlo Hhi. split_and!.
  - rewrite (map_seed_manager_restores_on_return (Some s0) _ w
               (with_seed (Some (s0 + 2 * total counts)) w) (stage_blocks s0 counts)).
    + f_equal. by destruct w.
    + rewrite <- (stage_dispensed_int64 counts s0) by done.
      exact (map_with_seeds_stages_base counts (with_seed (Some s0) w) s0 eq_refl).
  - clear H Hlo Hhi. revert s0. induction counts as [|n rest IH]; intros s0; [done|].
    cbn [stage_blocks]. rewrite !fmap_cons, (IH (s0 + 2 * n)).
    f_equal. unfold seed_block. by rewrite length_fmap, length_seqZ.
  - by apply stage_blocks_components.
  - rewrite stage_blocks_components by done.
    apply NoDup_fmap; [apply _ | apply NoDup_seqZ].
Qed.

Lemma stages_never_share_a_seed_witness :
  map_seed_manager (Some 10) (map_with_seeds_stages [1; 0; 2]) demo_world
  = (inr [[(Some 10, Some 11)]; []; [(Some 12, Some 13); (Some 14, Some 15)]],
     demo_world).
Proof.
  destruct (stages_never_share_a_seed demo_world 10 [1; 0; 2]) as (H & _).
  - repeat constructor; lia.
  - lia.
  - by vm_compute.
  - exact H.
Defined.

(** X2.  What a scope dispenses depends only on its seed and on the counts
    requested, not on the state the scope is entered in; and the scope gives
    the state back as it found it. *)
Theorem stages_reproducible (w w' : World) (s : Z) (counts : list Z) :
  (map_seed_manager (Some s) (map_with_seeds_stages counts) w).1
  = (map_seed_manager (Some s) (map_with_seeds_stages counts) w').1
  ∧ (map_seed_manager (Some s) (map_with_seeds_stages counts) w).2 = w.
Proof.
  assert (H : ∀ v, map_seed_manager (Some s) (map_with_seeds_stages counts) v
                   = (inr (stage_dispensed s counts), v)).
  { intros v.
    rewrite (map_seed_manager_restores_on_return (Some s) _ v
               (with_seed (Some (s + 2 * total counts)) v) (stage_dispensed s counts)).
    - f_equal. by destruct v.
    - exact (map_with_seeds_stages_base counts (with_seed (Some s) v) s eq_refl). }
  by rewrite !H.
Qed.

(** X3.  A nested scope whose body returns normally does not disturb the
    enclosing scope: the request made after it continues at the base the
    request before it had reached, whatever seed the nested scope used and
    however many seeds its body took.  The outer requests are taken inside
    the [int64] range, where the blocks are the runs of integers. *)
Theorem nested_scope_keeps_outer_counter {A} (w w1 : World) (s0 n1 n2 : Z)
    (inner : option Z) (body : M A) (r : A) :
  0 ≤ n1 → 0 ≤ n2 →
  - 2 ^ 63 ≤ s0 → s0 + 2 * n1 + 2 * n2 < 2 ^ 63 →
  body (with_seed inner (with_seed (Some (s0 + 2 * n1)) w)) = (inr r, w1) →
  map_seed_manager (Some s0)
    (a <- map_with_seeds n1 ;;
     b <- map_seed_manager inner body ;;
     c <- map_with_seeds n2 ;;
     ret (a, b, c)) w
  = (inr (seed_block s0 n1, r, seed_block (s0 + 2 * n1) n2),
     with_seed (NEXT_MAP_SEED w) w1).
Proof.
  intros Hn1 Hn2 Hlo Hhi Hbody.
  rewrite (map_seed_manager_restores_on_return (Some s0) _ w
             (with_seed (Some (s0 + 2 * n1 + 2 * n2)) w1)
             (seed_block s0 n1, r, seed_block (s0 + 2 * n1) n2));
    [reflexivity|].
  erewrite bind_ok; [|apply map_with_seeds_base; [done | lia..]].
  erewrite bind_ok; [|apply map_seed_manager_restores_on_return, Hbody].
  erewrite bind_ok; [|apply map_with_seeds_base; [done | lia..]].
  reflexivity.
Qed.

Lemma nested_scope_keeps_outer_counter_witness :
  map_seed_manager (Some 5)
    (a <- map_with_seeds 1 ;;
     b <- map_seed_manager (Some 100) (map_with_seeds 3) ;;
     c <- map_with_seeds 1 ;;
     ret (a, b, c)) demo_world
  = (inr ([(Some 5, Some 6)],
          [(Some 100, Some 101); (Some 102, Some 103); (Some 104, Some 105)],
          [(Some 7, Some 8)]),
     with_seed None (with_seed (Some 106) demo_world)).
Proof.
  apply (nested_scope_keeps_outer_counter demo_world
           (with_seed (Some 106) demo_world) 5 1 1 (Some 100) (map_with_seeds 3));
    [lia | lia | lia | lia | reflexivity].
Defined.

(** X4.  A request for zero seeds, or for a negative number of them, returns
    no seed.  With a base set the base still moves by twice the count: not at
    all for zero, backwards for a negative count.  Without a base nothing
    changes. *)
Theorem nonpositive_request_dispenses_nothing (w : World) (n : Z) :
  n ≤ 0 →
  (map_with_seeds n w).1 = inr []
  ∧ (∀ base, NEXT_MAP_SEED w = Some base →
       (map_with_seeds n w).2 = with_seed (Some (base + 2 * n)) w)
  ∧ (NEXT_MAP_SEED w = None ∨ n = 0 → (map_with_seeds n w).2 = w).
Proof.
  intros Hn.
  destruct (NEXT_MAP_SEED w) as [base|] eqn:Hb.
  - rewrite (map_with_seeds_dispensed w base n Hb), dispensed_nonpositive by done.
    cbn. split_and!.
    + done.
    + by intros ? [= <-].
    + intros [?| ->]; [done|]. by apply with_seed_own.
  - rewrite (map_with_seeds_unset w n Hb). cbn. split_and!; try done.
    unfold sentinel_block. by replace (Z.to_nat n) with 0%nat by lia.
Qed.

Lemma nonpositive_request_dispenses_nothing_witness :
  map_with_seeds (-1) (with_seed (Some 10) demo_world)
  = (inr [], with_seed (Some 8) demo_world).
Proof.
  destruct (nonpositive_request_dispenses_nothing
              (with_seed (Some 10) demo_world) (-1)) as (H1 & H2 & _); [lia|].
  specialize (H2 10 eq_refl).
  destruct (map_with_seeds (-1) (with_seed (Some 10) demo_world)) as [r v].
  cbn in H1, H2. by rewrite H1, H2.
Defined.

(** ** Global cache directories *)

Lemma list_contents_insert (st : CacheDirs) (g r : nat) (l : list string) :
  list_contents (mkCacheDirs g (<[g := l]> (list_objects st))) r
  = if decide (r = g) then l else list_contents st r.
Proof.
  unfold list_contents. cbn. case_decide as H.
  - subst r. by rewrite lookup_insert_eq.
  - by rewrite lookup_insert_ne.
Qed.

(** X5.  The list handed to [set_global_cache_dirs] is not copied: a later
    [add_global_cache_dirs] extends that very list in place.  After
    [set_global_cache_dirs(l); add_global_cache_dirs(m)] the global still
    names [l], [l] holds its old elements followed by those [m] had (so
    adding [l] to itself doubles it), and every other list is untouched. *)
Theorem add_extends_the_list_that_was_set (st : CacheDirs) (l m : nat) :
  let st' := add_global_cache_dirs m (set_global_cache_dirs l st) in
  get_global_cache_dirs st' = l
  ∧ list_contents st' l = list_contents st l ++ list_contents st m
  ∧ (∀ r, r ≠ l → list_contents st' r = list_contents st r).
Proof.
  cbn zeta. unfold add_global_cache_dirs, set_global_cache_dirs,
    get_global_cache_dirs. cbn [GLOBAL_CACHE_DIRECTORIES].
  split_and!.
  - done.
  - rewrite (list_contents_insert (mkCacheDirs l (list_objects st)) l l).
    by rewrite decide_True.
  - intros r Hr.
    rewrite (list_contents_insert (mkCacheDirs l (list_objects st)) l r).
    by rewrite decide_False.
Qed.

Lemma add_global_cache_dirs_other (st : CacheDirs) (r : nat) :
  r ≠ GLOBAL_CACHE_DIRECTORIES st →
  GLOBAL_CACHE_DIRECTORIES (add_global_cache_dirs r st) = GLOBAL_CACHE_DIRECTORIES st
  ∧ list_contents (add_global_cache_dirs r st) (GLOBAL_CACHE_DIRECTORIES st)
    = list_contents st (GLOBAL_CACHE_DIRECTORIES st) ++ list_contents st r
  ∧ (∀ q, q ≠ GLOBAL_CACHE_DIRECTORIES st →
          list_contents (add_global_cache_dirs r st) q = list_contents st q).
Proof.
  intros Hr. unfold add_global_cache_dirs. split_and!.
  - done.
  - rewrite list_contents_insert. by rewrite decide_True.
  - intros q Hq. rewrite list_contents_insert. by rewrite decide_False.
Qed.

(** X6.  Calls of [add_global_cache_dirs] accumulate: after adding the lists
    [rs] one by one, none of them being the global list itself, the global
    list holds its old elements followed by the elements of each added list
    in the order of the calls; it is still the same object, and the added
    lists are unchanged. *)
Theorem adds_accumulate_in_call_order (st : CacheDirs) (rs : list nat) :
  Forall (λ r, r ≠ GLOBAL_CACHE_DIRECTORIES st) rs →
  let st' := foldl (λ s r, add_global_cache_dirs r s) st rs in
  get_global_cache_dirs st' = get_global_cache_dirs st
  ∧ list_contents st' (get_global_cache_dirs st)
    = list_contents st (get_global_cache_dirs st)
      ++ concat (list_contents st <$> rs)
  ∧ (∀ q, q ≠ get_global_cache_dirs st →
          list_contents st' q = list_contents st q).
Proof.
  unfold get_global_cache_dirs. cbn zeta.
  revert st. induction rs as [|r rs IH]; intros st Hrs.
  - cbn. by rewrite app_nil_r.
  - apply Forall_cons in Hrs as [Hr Hrs].
    destruct (add_global_cache_dirs_other st r Hr) as (Hg & Hc & Ho).
    cbn [foldl]. specialize (IH (add_global_cache_dirs r st)).
    rewrite Hg in IH. destruct (IH Hrs) as (IH1 & IH2 & IH3).
    split_and!.
    + done.
    + rewrite IH2, Hc. cbn [fmap list_fmap concat]. rewrite <- app_assoc.
      do 2 f_equal. f_equal. apply list_fmap_ext.
      intros i q Hq. apply Ho.
      by eapply Forall_lookup_1 in Hrs.
    + intros q Hq. rewrite IH3 by done. by apply Ho.
Qed.

Lemma adds_accumulate_in_call_order_witness :
  list_contents
    (add_global_cache_dirs 1 (add_global_cache_dirs 2
       (add_global_cache_dirs 1 demo_cache_dirs))) 0
  = ["/a"; "/b"; "/c"; "/a"].
Proof.
  destruct (adds_accumulate_in_call_order demo_cache_dirs [1; 2; 1]%nat)
    as (_ & H & _).
  - repeat constructor; discriminate.
  - exact H.
Defined.

(** ** Paths of cached tasks *)

Lemma string_app_assoc (a b c : string) : (a +:+ b) +:+ c = a +:+ b +:+ c.
Proof.
  induction a as [|x a IH]; [done|].
  change (String x ((a +:+ b) +:+ c) = String x (a +:+ b +:+ c)). by rewrite IH.
Qed.

Lemma list_ascii_of_string_app (a b : string) :
  String.list_ascii_of_string (a +:+ b)
  = String.list_ascii_of_string a ++ String.list_ascii_of_string b.
Proof.
  induction a as [|x a IH]; [done|].
  change (x :: String.list_ascii_of_string (a +:+ b)
          = x :: String.list_ascii_of_string a ++ String.list_ascii_of_string b).
  by rewrite IH.
Qed.

Lemma string_app_inj_r (a b c : string) : a +:+ c = b +:+ c → a = b.
Proof.
  intros H. apply (f_equal String.list_ascii_of_string) in H.
  rewrite !list_ascii_of_string_app in H. apply app_inv_tail in H.
  apply (f_equal String.string_of_list_ascii) in H.
  by rewrite !String.string_of_list_ascii_of_string in H.
Qed.

Lemma prefix_app (a b : string) : String.prefix a (a +:+ b) = true.
Proof.
  induction a as [|x a IH]; [by destruct b|].
  change (String.prefix (String x a) (String x (a +:+ b)) = true).
  cbn [String.prefix]. destruct (ascii_dec x x); [done | congruence].
Qed.

Lemma string_app_nil_r (a : string) : a +:+ "" = a.
Proof.
  induction a as [|x a IH]; [done|].
  change (String x (a +:+ "") = String x a). by rewrite IH.
Qed.

Lemma prefix_refl (a : string) : String.prefix a a = true.
Proof. rewrite <- (string_app_nil_r a) at 2. apply prefix_app. Qed.

(** The directory part [os_path_join] puts in front of a relative name. *)
Lemma os_path_join_relative (a : string) :
  ∃ front, String.prefix a front = true
           ∧ ∀ b, String.prefix "/" b = false → os_path_join a b = front +:+ b.
Proof.
  unfold os_path_join.
  destruct (String.eqb a "" || endswith_sep a) eqn:H.
  - exists a. split; [apply prefix_refl|]. by intros b ->.
  - exists (a +:+ "/"). split; [apply prefix_app|].
    intros b ->. symmetry. apply string_app_assoc.
Qed.

Lemma prefix_app_l (a f b : string) :
  String.prefix a f = true → String.prefix a (f +:+ b) = true.
Proof.
  revert f. induction a as [|x a IH]; intros f H.
  - by destruct (f +:+ b).
  - destruct f as [|y f]; [done|].
    change (String.prefix (String x a) (String y (f +:+ b)) = true).
    cbn [String.prefix] in *. destruct (ascii_dec x y); [by apply IH | done].
Qed.

Lemma format_info (split : string) :
  format_split _INFO_FILENAME split = "info." +:+ split +:+ ".json".
Proof. reflexivity. Qed.

Lemma format_stats (split : string) :
  format_split _STATS_FILENAME split = "stats." +:+ split +:+ ".json".
Proof. reflexivity. Qed.

Lemma format_tfrecord (split : string) :
  format_split _TFRECORD_PREFIX split = split +:+ ".tfrecord".
Proof. reflexivity. Qed.

Lemma tfrecord_name_absolute (split : string) :
  String.prefix "/" (split +:+ ".tfrecord") = String.prefix "/" split.
Proof.
  destruct split as [|c r]; [done|].
  change (String.prefix "/" (String c (r +:+ ".tfrecord"))
          = String.prefix "/" (String c r)).
  cbn [String.prefix]. destruct (ascii_dec "/"%char c); [|reflexivity].
  destruct (r +:+ ".tfrecord"); by destruct r.
Qed.

(** Strings that end in different characters differ. *)
Lemma last_char_differs (x y u v : string) (a b : ascii) :
  a ≠ b → x +:+ u +:+ String a "" ≠ y +:+ v +:+ String b "".
Proof.
  intros Hab H. apply (f_equal String.list_ascii_of_string) in H.
  rewrite !list_ascii_of_string_app in H. cbn in H.
  rewrite !app_assoc in H. apply (f_equal last) in H.
  rewrite !last_snoc in H. congruence.
Qed.

Lemma json_is_not_tfrecord (x y : string) : x +:+ ".json" ≠ y +:+ ".tfrecord".
Proof. apply (last_char_differs x y ".jso" ".tfrecor" "n" "d"). discriminate. Qed.

Lemma info_path_shape (data_dir split : string) :
  ∃ front, String.prefix data_dir front = true
    ∧ ∀ s, get_info_path data_dir s = front +:+ "info." +:+ s +:+ ".json"
    ∧ get_stats_path data_dir s = front +:+ "stats." +:+ s +:+ ".json"
    ∧ (String.prefix "/" s = false →
       get_tfrecord_prefix data_dir s = front +:+ s +:+ ".tfrecord")
    ∧ (String.prefix "/" s = true →
       get_tfrecord_prefix data_dir s = s +:+ ".tfrecord").
Proof.
  destruct (os_path_join_relative data_dir) as (front & Hp & Hj).
  exists front. split; [done|]. intros s.
  unfold get_info_path, get_stats_path, get_tfrecord_prefix.
  rewrite format_info, format_stats, format_tfrecord. split_and!.
  - by apply Hj.
  - by apply Hj.
  - intros Hs. apply Hj. by rewrite tfrecord_name_absolute.
  - intros Hs. unfold os_path_join. by rewrite tfrecord_name_absolute, Hs.
Qed.

(** X7.  For one data directory, the info file, the stats file and the
    TFRecord prefix never coincide, whatever the split names: a task's
    metadata cannot overwrite its records or the metadata of the other
    kind. *)
Theorem cache_paths_never_collide (data_dir split1 split2 : string) :
  get_info_path data_dir split1 ≠ get_stats_path data_dir split2
  ∧ get_info_path data_dir split1 ≠ get_tfrecord_prefix data_dir split2
  ∧ get_stats_path data_dir split1 ≠ get_tfrecord_prefix data_dir split2.
Proof.
  destruct (info_path_shape data_dir split1) as (front & _ & H).
  destruct (H split1) as (Hi1 & Hs1 & _).
  destruct (H split2) as (_ & Hs2 & Hrel & Habs).
  split_and!.
  - rewrite Hi1, Hs2. intros E. apply String.app_inj in E. discriminate E.
  - rewrite Hi1. destruct (String.prefix "/" split2) eqn:Hp.
    + rewrite Habs by done.
      rewrite <- (string_app_assoc "info."), <- string_app_assoc.
      apply json_is_not_tfrecord.
    + rewrite Hrel by done.
      rewrite <- (string_app_assoc "info."), <- !string_app_assoc.
      apply json_is_not_tfrecord.
  - rewrite Hs1. destruct (String.prefix "/" split2) eqn:Hp.
    + rewrite Habs by done.
      rewrite <- (string_app_assoc "stats."), <- string_app_assoc.
      apply json_is_not_tfrecord.
    + rewrite Hrel by done.
      rewrite <- (string_app_assoc "stats."), <- !string_app_assoc.
      apply json_is_not_tfrecord.
Qed.

(** X8.  For one data directory, different splits get different info files
    and different stats files; they get different TFRecord prefixes too as
    long as neither split name starts with a slash. *)
Theorem cache_paths_tell_splits_apart (data_dir split1 split2 : string) :
  (get_info_path data_dir split1 = get_info_path data_dir split2
   ↔ split1 = split2)
  ∧ (get_stats_path data_dir split1 = get_stats_path data_dir split2
     ↔ split1 = split2)
  ∧ (String.prefix "/" split1 = false → String.prefix "/" split2 = false →
     (get_tfrecord_prefix data_dir split1 = get_tfrecord_prefix data_dir split2
      ↔ split1 = split2)).
Proof.
  destruct (info_path_shape data_dir split1) as (front & _ & H).
  destruct (H split1) as (Hi1 & Hs1 & Ht1 & _).
  destruct (H split2) as (Hi2 & Hs2 & Ht2 & _).
  split_and!.
  - split; [|by intros ->]. rewrite Hi1, Hi2. intros E.
    apply String.app_inj, String.app_inj in E. by apply string_app_inj_r in E.
  - split; [|by intros ->]. rewrite Hs1, Hs2. intros E.
    apply String.app_inj, String.app_inj in E. by apply string_app_inj_r in E.
  - intros Hp1 Hp2. split; [|by intros ->]. rewrite Ht1, Ht2 by done. intros E.
    apply String.app_inj in E. by apply string_app_inj_r in E.
Qed.

(** X9.  The info and stats paths always lie under the data directory.  The
    TFRecord prefix does so only when the split name does not start with a
    slash: [os.path.join] lets an absolute second argument replace the first,
    so for such a split the data directory is dropped and the prefix is the
    same for every data directory. *)
Theorem absolute_split_escapes_data_dir (data_dir split : string) :
  String.prefix data_dir (get_info_path data_dir split) = true
  ∧ String.prefix data_dir (get_stats_path data_dir split) = true
  ∧ (String.prefix "/" split = false →
     String.prefix data_dir (get_tfrecord_prefix data_dir split) = true)
  ∧ (String.prefix "/" split = true →
     ∀ other_dir, get_tfrecord_prefix other_dir split = split +:+ ".tfrecord").
Proof.
  destruct (info_path_shape data_dir split) as (front & Hp & H).
  destruct (H split) as (Hi & Hs & Ht & _).
  split_and!.
  - rewrite Hi. by apply prefix_app_l.
  - rewrite Hs. by apply prefix_app_l.
  - intros Hrel. rewrite Ht by done. by apply prefix_app_l.
  - intros Habs other_dir.
    destruct (info_path_shape other_dir split) as (? & _ & H').
    destruct (H' split) as (_ & _ & _ & Ha). by apply Ha.
Qed.

(** ** More on the memoized builder *)

(** X10.  The dictionary is keyed by name and resolved directory, not by
    loader: two loaders with the same name whose directories resolve to the
    same value share one builder.  Starting without the key, the first
    loader's [builder] calls [tfds.builder] and the second loader's [builder]
    returns that same object without a call. *)
Theorem loaders_with_one_key_share_a_builder (self1 self2 : LazyTfdsLoader)
    (w : World) (bd : Builder) :
  name self1 = name self2 →
  resolved_dir self1 w = resolved_dir self2 w →
  MEMOIZED_BUILDERS w !! (name self1, resolved_dir self1 w) = None →
  catalog w (name self1) (resolved_dir self1 w) = Some bd →
  ∃ (b : BuilderObj) (w1 w2 : World),
    builder self1 w = (inr b, w1)
    ∧ builder self2 w1 = (inr b, w2)
    ∧ contents b = bd
    ∧ builder_calls w1 = S (builder_calls w)
    ∧ builder_calls w2 = S (builder_calls w).
Proof.
  intros Hn Hd Hk Hc.
  pose proof (builder_miss _ _ _ Hk Hc) as H1.
  eexists _, _, _. split; [exact H1|]. split.
  { apply builder_hit. cbn [MEMOIZED_BUILDERS with_memo].
    rewrite (resolved_dir_stable self2 w)
      by (cbn [TFDS_DATA_DIR_OVERRIDE with_memo with_call];
          by rewrite !after_data_dir_override).
    by rewrite <- Hn, <- Hd, lookup_insert_eq. }
  rewrite after_data_dir_calls.
  cbn [builder_calls with_memo with_call contents].
  rewrite !after_data_dir_calls. by split_and!.
Qed.

Lemma loaders_with_one_key_share_a_builder_witness :
  ∃ (b : BuilderObj) (w1 w2 : World),
    builder demo_loader (with_override (Some "/data") demo_world) = (inr b, w1)
    ∧ builder dir_loader w1 = (inr b, w2)
    ∧ builder_calls w2 = 1%nat.
Proof.
  destruct (loaders_with_one_key_share_a_builder demo_loader dir_loader
              (with_override (Some "/data") demo_world) demo_builder)
    as (b & w1 & w2 & H1 & H2 & _ & _ & H3);
    [reflexivity | reflexivity | reflexivity | reflexivity |].
  by exists b, w1, w2.
Defined.

(** X11.  A failure of [tfds.builder] is not remembered: [builder] passes the
    exception on and leaves the dictionary as it was, so the next call asks
    [tfds.builder] again. *)
Theorem builder_failure_is_not_cached (self : LazyTfdsLoader) (w : World) :
  MEMOIZED_BUILDERS w !! (name self, resolved_dir self w) = None →
  catalog w (name self) (resolved_dir self w) = None →
  (builder self w).1 = inl (BuilderError (name self))
  ∧ MEMOIZED_BUILDERS (builder self w).2 = MEMOIZED_BUILDERS w
  ∧ builder_calls (builder self w).2 = S (builder_calls w)
  ∧ (builder self (builder self w).2).1 = inl (BuilderError (name self))
  ∧ builder_calls (builder self (builder self w).2).2 = S (S (builder_calls w)).
Proof.
  intros Hk Hc. rewrite (builder_miss_raises _ _ Hk Hc). cbn [fst snd].
  set (w1 := with_call _).
  assert (Ho : TFDS_DATA_DIR_OVERRIDE w1 = TFDS_DATA_DIR_OVERRIDE w)
    by (subst w1; cbn; by rewrite !after_data_dir_override).
  assert (Hm : MEMOIZED_BUILDERS w1 = MEMOIZED_BUILDERS w)
    by (subst w1; cbn; by rewrite !after_data_dir_memo).
  assert (Hn : builder_calls w1 = S (builder_calls w))
    by (subst w1; cbn; by rewrite !after_data_dir_calls).
  assert (Hcat : catalog w1 = catalog w)
    by (subst w1; cbn; by rewrite !after_data_dir_catalog).
  rewrite (builder_miss_raises self w1).
  - cbn. rewrite !after_data_dir_calls, Hn. by split_and!.
  - by rewrite (resolved_dir_stable self w), Hm.
  - by rewrite (resolved_dir_stable self w), Hcat.
Qed.

Lemma builder_failure_is_not_cached_witness :
  (builder missing_loader demo_world).1 = inl (BuilderError "c4")
  ∧ builder_calls (builder missing_loader (builder missing_loader demo_world).2).2
    = 2%nat.
Proof.
  destruct (builder_failure_is_not_cached missing_loader demo_world)
    as (H1 & _ & _ & _ & H2); [reflexivity | reflexivity |].
  by split.
Defined.

Lemma memo_grows_bind {A B} (m : M A) (k : A → M B) :
  memo_grows m → (∀ a, memo_grows (k a)) → memo_grows (bind m k).
Proof.
  intros Hm Hk w. unfold bind. specialize (Hm w).
  destruct (m w) as [[e|a] w1]; [done|]. cbn in Hm.
  etrans; [exact Hm | apply Hk].
Qed.

Lemma memo_grows_ret {A} (a : A) : memo_grows (ret a).
Proof. by intros w. Qed.

Lemma memo_grows_raise {A} (e : Exc) : memo_grows (@raise A e).
Proof. by intros w. Qed.

Lemma memo_grows_builder (self : LazyTfdsLoader) : memo_grows (builder self).
Proof.
  intros w.
  destruct (MEMOIZED_BUILDERS w !! (name self, resolved_dir self w)) as [b|] eqn:Hk.
  - rewrite (builder_hit _ _ _ Hk). cbn. by rewrite after_data_dir_memo.
  - destruct (catalog w (name self) (resolved_dir self w)) as [bd|] eqn:Hc.
    + rewrite (builder_miss _ _ _ Hk Hc). cbn. by apply insert_subseteq.
    + rewrite (builder_miss_raises _ _ Hk Hc). cbn.
      by rewrite !after_data_dir_memo.
Qed.

Lemma memo_grows_map_split (self : LazyTfdsLoader) (split : string) :
  memo_grows (_map_split self split).
Proof. intros w. by rewrite map_split_world. Qed.

Lemma memo_grows_getitem (b : Builder) (key : string) :
  memo_grows (getitem b key).
Proof. intros w. by rewrite getitem_world. Qed.

(** X12.  [builder], [info], [files] and [size] never remove or replace an
    entry of the dictionary of builders, on any path, failing ones included:
    a builder that has been handed out stays the one its key maps to. *)
Theorem memoized_builders_only_grow (self : LazyTfdsLoader) (split : string)
    (w : World) :
  MEMOIZED_BUILDERS w ⊆ MEMOIZED_BUILDERS (builder self w).2
  ∧ MEMOIZED_BUILDERS w ⊆ MEMOIZED_BUILDERS (info self w).2
  ∧ MEMOIZED_BUILDERS w ⊆ MEMOIZED_BUILDERS (files self split w).2
  ∧ MEMOIZED_BUILDERS w ⊆ MEMOIZED_BUILDERS (size self split w).2.
Proof.
  split_and!.
  - apply memo_grows_builder.
  - apply (memo_grows_bind (builder self)); [apply memo_grows_builder|].
    intros b. apply memo_grows_ret.
  - revert w. change (memo_grows (files self split)). unfold files.
    apply memo_grows_bind; [apply memo_grows_map_split|]. intros s.
    apply memo_grows_bind.
    { destruct (negb (str_in "/" (name self))); [|apply memo_grows_ret].
      apply memo_grows_bind; [apply memo_grows_builder|].
      intros b. apply memo_grows_ret. }
    intros [|]; [apply memo_grows_raise|].
    apply memo_grows_bind; [apply memo_grows_builder|]. intros b.
    apply memo_grows_bind; [apply memo_grows_getitem|]. intros si.
    apply memo_grows_bind; [|intros; apply memo_grows_ret].
    case_bool_decide; [|apply memo_grows_ret].
    intros v. by rewrite logging_fatal_eq.
  - revert w. change (memo_grows (size self split)). unfold size.
    apply memo_grows_bind; [apply memo_grows_map_split|]. intros s.
    apply memo_grows_bind.
    { apply (memo_grows_bind (builder self)); [apply memo_grows_builder|].
      intros b. apply memo_grows_ret. }
    intros ds. apply memo_grows_bind; [apply memo_grows_getitem|]. intros si.
    apply memo_grows_ret.
Qed.

(** ** Errors of [files] and [size] *)

(** X13.  A name without a slash that TFDS resolves to a builder with named
    configurations is rejected: [files] raises [ValueError] naming the
    dataset, whatever the split is and whether or not it has files. *)
Theorem files_rejects_ambiguous_dataset (self : LazyTfdsLoader)
    (split s : string) (w : World) (b : BuilderObj) :
  (_map_split self split w).1 = inr s →
  str_in "/" (name self) = false →
  (builder self w).1 = inr b →
  BUILDER_CONFIGS (contents b) ≠ [] →
  (files self split w).1
  = inl (ValueError ("Dataset '" +:+ name self +:+ "' has multiple configs.")).
Proof.
  intros Hs Hslash Hb Hcfg.
  destruct (builder self w) as [r w1] eqn:Hbw. cbn in Hb. subst r.
  unfold files.
  rewrite (bind_ok _ _ w w s) by (rewrite map_split_world; by rewrite Hs).
  rewrite Hslash. cbn [negb].
  rewrite (bind_ok _ _ w w1 true).
  - reflexivity.
  - rewrite (bind_ok _ _ _ _ _ Hbw). by rewrite bool_decide_false.
Qed.

Lemma files_rejects_ambiguous_dataset_witness :
  (files glue_loader "train" wide_world).1
  = inl (ValueError "Dataset 'glue' has multiple configs.").
Proof.
  apply (files_rejects_ambiguous_dataset glue_loader "train" "train" wide_world
           (mkBuilderObj 0 glue_builder));
    [reflexivity | reflexivity | reflexivity | discriminate].
Defined.

(** X14.  A resolved split name that is not a key of [builder.info.splits]
    is handed to TFDS's parser of split instructions.  What the parser
    raises (for a split it does not know, [ValueError]) comes out of [size]
    unchanged, and out of [files] too once its configuration check has
    passed.  What the parser computes is used like an entry: [size] reports
    its number of examples, or [np.inf] when that is not positive. *)
Theorem non_key_split_goes_to_the_parser (self : LazyTfdsLoader)
    (split s : string) (w : World) (b : BuilderObj) :
  (_map_split self split w).1 = inr s →
  (builder self w).1 = inr b →
  splits (contents b) !! s = None →
  (∀ e, split_instruction (contents b) s = inl e →
     (size self split w).1 = inl e
     ∧ (str_in "/" (name self) = true ∨ BUILDER_CONFIGS (contents b) = [] →
        (files self split w).1 = inl e))
  ∧ (∀ si, split_instruction (contents b) s = inr si →
     (size self split w).1
     = inr (if bool_decide (0 < num_examples si)
            then Count (num_examples si) else Inf)).
Proof.
  intros Hs Hb Hsi.
  destruct (builder self w) as [r w1] eqn:Hbw. cbn in Hb. subst r.
  assert (Hsz : size self split w
    = bind (getitem (contents b) s)
        (λ split_info, ret (if bool_decide (num_examples split_info > 0)
                            then Count (num_examples split_info) else Inf)) w1).
  { unfold size, info.
    rewrite (bind_ok _ _ w w s) by (rewrite map_split_world; by rewrite Hs).
    by rewrite (bind_ok _ _ w w1 (contents b))
      by (by rewrite (bind_ok _ _ _ _ _ Hbw)). }
  split.
  - intros e He.
    assert (Hget : ∀ v, getitem (contents b) s v = (inl e, v))
      by (intros v; unfold getitem; by rewrite Hsi, He).
    split.
    + rewrite Hsz. unfold bind. by rewrite Hget.
    + intros Hcfg. unfold files.
      rewrite (bind_ok _ _ w w s) by (rewrite map_split_world; by rewrite Hs).
      destruct (str_in "/" (name self)) eqn:Hslash; cbn [negb].
      * rewrite bind_ret_l. rewrite (bind_ok _ _ _ _ _ Hbw).
        unfold bind at 1. by rewrite Hget.
      * destruct Hcfg as [?|Hcfg]; [done|].
        rewrite (bind_ok _ _ w w1 false).
        2:{ rewrite (bind_ok _ _ _ _ _ Hbw). by rewrite Hcfg. }
        rewrite (bind_ok _ _ _ _ _ (builder_again _ _ _ _ Hbw)).
        unfold bind at 1. by rewrite Hget.
  - intros si He. rewrite Hsz. unfold bind, getitem. rewrite Hsi, He. cbn.
    do 2 f_equal.
    rewrite (bool_decide_ext (num_examples si > 0) (0 < num_examples si)) by lia.
    done.
Qed.

Lemma non_key_split_goes_to_the_parser_witness :
  (size demo_loader "test" demo_world).1 = inl (ValueError "Unknown split test")
  ∧ (files demo_loader "test" demo_world).1
    = inl (ValueError "Unknown split test")
  ∧ (size mapped_loader "validation" demo_world).1 = inr (Count 1).
Proof.
  destruct (non_key_split_goes_to_the_parser demo_loader "test" "test" demo_world
              (mkBuilderObj 0 demo_builder)) as (H1 & _);
    [reflexivity | reflexivity | by vm_compute |].
  destruct (H1 (ValueError "Unknown split test")) as (Ha & Hb); [reflexivity|].
  destruct (non_key_split_goes_to_the_parser mapped_loader "validation"
              "train[:1%]" demo_world (mkBuilderObj 0 demo_builder)) as (_ & H2);
    [by vm_compute | reflexivity | by vm_compute |].
  split_and!; [exact Ha | apply Hb; by right |].
  apply (H2 (mkSplitInfo [demo_shard] 1)). reflexivity.
Defined.

(** X15.  When split resolution fails, [files] and [size] stop there: they
    raise the same exception and leave the whole state untouched, so no
    builder is constructed and nothing is logged. *)
Theorem unresolved_split_stops_before_builder (self : LazyTfdsLoader)
    (split : string) (w : World) (e : Exc) :
  (_map_split self split w).1 = inl e →
  files self split w = (inl e, w) ∧ size self split w = (inl e, w).
Proof.
  intros He. unfold files, size, bind.
  rewrite map_split_world, He. done.
Qed.

Lemma unresolved_split_stops_before_builder_witness :
  files mapped_loader "train" demo_world = (inl (KeyError "train"), demo_world)
  ∧ size mapped_loader "train" demo_world = (inl (KeyError "train"), demo_world).
Proof.
  apply (unresolved_split_stops_before_builder mapped_loader "train" demo_world).
  by vm_compute.
Defined.

(** ** What [builder] logs *)

Lemma after_data_dir_log (self : LazyTfdsLoader) (w : World) :
  log (after_data_dir self w)
  = log w ++ (if truthy_str (TFDS_DATA_DIR_OVERRIDE w) && truthy_str (_data_dir self)
              then [LogWarning (override_warning self w)] else []).
Proof.
  unfold after_data_dir. case_match; [done|]. by rewrite app_nil_r.
Qed.

Lemma after_data_dir_warning (self : LazyTfdsLoader) (w : World) :
  override_warning self (after_data_dir self w) = override_warning self w.
Proof. unfold override_warning. by rewrite after_data_dir_override. Qed.

(** X16.  [builder] writes to the log only when the override and the
    loader's own directory are both set, and then it writes the override
    warning once per evaluation of [data_dir]: once when the key is already
    in the dictionary, twice when the builder has to be constructed (or its
    construction fails). *)
Theorem builder_logs_one_warning_per_data_dir (self : LazyTfdsLoader) (w : World) :
  log (builder self w).2
  = log w ++
    replicate
      (if truthy_str (TFDS_DATA_DIR_OVERRIDE w) && truthy_str (_data_dir self)
       then match MEMOIZED_BUILDERS w !! (name self, resolved_dir self w) with
            | Some _ => 1
            | None => 2
            end
       else 0)%nat
      (LogWarning (override_warning self w)).
Proof.
  assert (H2 : log (after_data_dir self (after_data_dir self w))
    = log w ++ replicate
        (if truthy_str (TFDS_DATA_DIR_OVERRIDE w) && truthy_str (_data_dir self)
         then 2 else 0)%nat (LogWarning (override_warning self w))).
  { rewrite !after_data_dir_log, after_data_dir_override, after_data_dir_warning.
    case_match; [by rewrite <- app_assoc | by rewrite !app_nil_r]. }
  destruct (MEMOIZED_BUILDERS w !! (name self, resolved_dir self w)) as [b|] eqn:Hk.
  - rewrite (builder_hit _ _ _ Hk). cbn [snd]. rewrite after_data_dir_log.
    by case_match.
  - destruct (catalog w (name self) (resolved_dir self w)) as [bd|] eqn:Hc.
    + rewrite (builder_miss _ _ _ Hk Hc). cbn [snd log with_memo with_call].
      exact H2.
    + rewrite (builder_miss_raises _ _ Hk Hc). cbn [snd log with_call].
      exact H2.
Qed.
